(** * The IST chat widget (script_bot.js): keyword matcher and conversation turn

    A shallow embedding of [script_bot.js].  The file has three layers, in the
    order of the source:

    - the page state touched by [addMessage], [showTypingIndicator] and
      [hideTypingIndicator] (the children of the [chat-messages] element and
      the [disabled] flags of the two input controls);
    - the keyword pipeline at the top of [getBotResponse]
      ([allWords], [userKeywords], [limitedKeywords]);
    - the scoring loop of [getBotResponse] ([currentScore], [bestMatch]) and the
      turn itself, with the Firestore query as an oracle that either yields a
      snapshot or fails.

    JavaScript strings are sequences of UTF-16 code units; they are modelled as
    lists of [N].  Nothing below relies on a code unit being below 65536. *)

From stdpp Require Import base numbers list gmap strings.

Local Open Scope N_scope.

(** ** Strings *)

Definition code_unit : Type := N.
Abbreviation jsstring := (list code_unit).

(** A source literal, one code unit per character (the literals of the source
    are ASCII). *)
Definition js (s : string) : jsstring :=
  (λ a, Ascii.N_of_ascii a) <$> String.list_ascii_of_string s.

(** [\w] without the [u] or [i] flag: [[A-Za-z0-9_]]. *)
Definition isWordChar (c : code_unit) : bool :=
  ((48 <=? c) && (c <=? 57)) || ((65 <=? c) && (c <=? 90))
  || (c =? 95) || ((97 <=? c) && (c <=? 122)).

(** The current run of word characters, closed by a [\b]: a match of
    [\b(\w+)\b] is never empty. *)
Definition closeRun (run : jsstring) : list jsstring :=
  match run with
  | [] => []
  | _ :: _ => [run]
  end.

(** All matches of [/\b(\w+)\b/g], left to right.  A match can only start where
    a word character follows a non-word character or the start of the input, and
    the greedy [\w+] followed by [\b] stops where the next code unit is not a
    word character or the input ends: the matches are the maximal runs of word
    characters.  [run] is the run being read. *)
Fixpoint wordRuns (run : jsstring) (s : jsstring) : list jsstring :=
  match s with
  | [] => closeRun run
  | c :: s' =>
      if isWordChar c then wordRuns (run ++ [c]) s'
      else closeRun run ++ wordRuns [] s'
  end.

(** [s.match(/\b(\w+)\b/g)]: [null] when nothing matches. *)
Definition match_words (s : jsstring) : option (list jsstring) :=
  match wordRuns [] s with
  | [] => None
  | ws => Some ws
  end.

(** [String.prototype.toLowerCase] restricted to what can be written down
    without the Unicode case tables: [A-Z] go to [a-z], every other code unit is
    kept.  This is the built-in on every text in which the built-in changes
    nothing but the letters [A-Z]: ASCII text, and text whose other characters
    have no case (digits, punctuation and whitespace of any script).  It is
    not the built-in elsewhere (the built-in sends U+212A to [k], for
    instance): a statement about the script for every text takes the
    lowercasing as a parameter, and one that needs [toLowerCaseASCII] assumes
    that the two agree on the text at hand. *)
Definition lowerUnit (c : code_unit) : code_unit :=
  if (65 <=? c) && (c <=? 90) then c + 32 else c.

Definition toLowerCaseASCII (s : jsstring) : jsstring := lowerUnit <$> s.

(** [Array.prototype.slice(start, end)] for non-negative indices. *)
Definition slice {A} (l : list A) (start stop : nat) : list A :=
  take (stop - start) (drop start l).

(** ** Constants of [getBotResponse] *)

Definition defaultResponse : jsstring :=
  js "I'm sorry, I don't have the answer to that. Please try asking in a different way or visit the official IST website for more information.".

Definition troubleResponse : jsstring :=
  js "Sorry, I'm having trouble connecting to my knowledge base right now.".

Definition stopWordList : list jsstring :=
  js <$> [ "i"; "me"; "my"; "myself"; "we"; "our"; "ours"; "ourselves"; "you";
    "your"; "yours"; "yourself"; "yourselves"; "he"; "him"; "his"; "himself";
    "she"; "her"; "hers"; "herself"; "it"; "its"; "itself"; "they"; "them";
    "their"; "theirs"; "themselves"; "what"; "which"; "who"; "whom"; "this";
    "that"; "these"; "those"; "am"; "is"; "are"; "was"; "were"; "be"; "been";
    "being"; "have"; "has"; "had"; "having"; "do"; "does"; "did"; "doing"; "a";
    "an"; "the"; "and"; "but"; "if"; "or"; "because"; "as"; "until"; "while";
    "of"; "at"; "by"; "for"; "with"; "about"; "against"; "between"; "into";
    "through"; "during"; "before"; "after"; "above"; "below"; "to"; "from";
    "up"; "down"; "in"; "out"; "on"; "off"; "over"; "under"; "again";
    "further"; "then"; "once"; "here"; "there"; "when"; "where"; "why"; "how";
    "all"; "any"; "both"; "each"; "few"; "more"; "most"; "other"; "some";
    "such"; "no"; "nor"; "not"; "only"; "own"; "same"; "so"; "than"; "too";
    "very"; "s"; "t"; "can"; "will"; "just"; "don"; "should"; "now" ]%string.

(** [new Set([...])]. *)
Definition stopWords : gset jsstring := list_to_set stopWordList.

(** [stopWords.has(word)]. *)
Definition stopWords_has (word : jsstring) : bool :=
  bool_decide (word ∈ stopWords).

(** ** The page *)

(** What a [div] of the transcript shows: [textContent = text] for a message
    bubble, [innerHTML = markup] for the indicator. *)
Inductive Content : Type :=
  | TextContent (text : jsstring)
  | InnerHTML (markup : jsstring).

(** A child of the [chat-messages] element.  [id] is the empty string when
    the element has none, as in the DOM. *)
Record Element : Type := mkElement {
  classList : list jsstring;
  content : Content;
  id : jsstring
}.

#[global] Instance Content_eq_dec : EqDecision Content.
Proof. solve_decision. Defined.

#[global] Instance Element_eq_dec : EqDecision Element.
Proof. solve_decision. Defined.

(** The state a turn reads and writes: the children of [chatMessages] in
    document order, the [chatInput] and [sendButton] controls, and the queries
    sent to the store so far ([issued], oldest first).  Scroll position and
    focus are layout state and are not tracked.  The static page itself is not
    part of the repository's script; it is taken to carry no element with the
    id [typing-indicator], so that [document.getElementById] can only find
    children of [chatMessages]. *)
Record Page : Type := mkPage {
  chatMessages : list Element;
  chatInput_value : jsstring;
  chatInput_disabled : bool;
  sendButton_disabled : bool;
  issued : list (list jsstring)
}.

Definition set_chatMessages (f : list Element → list Element) (p : Page) : Page :=
  mkPage (f (chatMessages p)) (chatInput_value p) (chatInput_disabled p)
         (sendButton_disabled p) (issued p).

Definition set_chatInput_value (v : jsstring) (p : Page) : Page :=
  mkPage (chatMessages p) v (chatInput_disabled p) (sendButton_disabled p)
         (issued p).

(** [chatInput.disabled = b; sendButton.disabled = b;] *)
Definition set_disabled (b : bool) (p : Page) : Page :=
  mkPage (chatMessages p) (chatInput_value p) b b (issued p).

(** [q.get()] was called with the keyword list [q]. *)
Definition log_query (q : list jsstring) (p : Page) : Page :=
  mkPage (chatMessages p) (chatInput_value p) (chatInput_disabled p)
         (sendButton_disabled p) (issued p ++ [q]).

(** [classList.add(t1, t2, ...)]: a token already present is not added again. *)
Definition classList_add (tokens : list jsstring) (cl : list jsstring) : list jsstring :=
  foldl (λ cl t, if bool_decide (t ∈ cl) then cl else cl ++ [t]) cl tokens.

(** The [div] that [addMessage] creates. *)
Definition messageDiv (text className : jsstring) : Element :=
  mkElement (classList_add [js "message"; className] []) (TextContent text) [].

Definition addMessage (text className : jsstring) (p : Page) : Page :=
  set_chatMessages (λ children, children ++ [messageDiv text className]) p.

(** The [div] that [showTypingIndicator] creates. *)
Definition indicatorDiv : Element :=
  mkElement
    (classList_add [js "message"; js "bot-message"; js "typing-indicator"] [])
    (InnerHTML (js "<span></span><span></span><span></span>"))
    (js "typing-indicator").

Definition showTypingIndicator (p : Page) : Page :=
  set_chatMessages (λ children, children ++ [indicatorDiv]) p.

(** [document.getElementById(i)]: the first element in document order whose id
    is [i], with its position among the children. *)
Definition getElementById (i : jsstring) (children : list Element) : option (nat * Element) :=
  list_find (λ e, id e = i) children.

Definition hideTypingIndicator (p : Page) : Page :=
  match getElementById (js "typing-indicator") (chatMessages p) with
  | Some (n, _) => set_chatMessages (delete n) p
  | None => p
  end.

(** The number of typing indicators in the transcript. *)
Definition indicators (p : Page) : nat :=
  length (filter (λ e, id e = js "typing-indicator") (chatMessages p)).

(** ** The keyword pipeline (step 1 of [getBotResponse]) *)

Section Keywords.
(** [String.prototype.toLowerCase] is a built-in whose Unicode case tables are
    no part of the repository: the pipeline takes it as a parameter, and
    [toLowerCaseASCII] is its instance on text where only [A-Z] change. *)
Variable toLowerCase : jsstring → jsstring.

(** [userText.toLowerCase().match(/\b(\w+)\b/g) || []] *)
Definition allWords (userText : jsstring) : list jsstring :=
  default [] (match_words (toLowerCase userText)).

(** [allWords.filter(word => !stopWords.has(word))] *)
Definition userKeywords (userText : jsstring) : list jsstring :=
  filter (λ word, negb (stopWords_has word) = true) (allWords userText).

(** [userKeywords.slice(0, 10)] *)
Definition limitedKeywords (userText : jsstring) : list jsstring :=
  slice (userKeywords userText) 0 10.
End Keywords.

(** ** Scoring (step 2 of [getBotResponse]) *)

(** A document of the [qna] collection, as [doc.data()] returns it. *)
Record QARecord : Type := mkQA {
  keywords : list jsstring;
  answer : jsstring
}.

(** The running [bestMatch = { score, answer }]. *)
Record Best : Type := mkBest {
  score : nat;
  bestAnswer : jsstring
}.

(** [limitedKeywords.includes(keyword)] *)
Definition includes (limitedKeywords : list jsstring) (keyword : jsstring) : bool :=
  bool_decide (keyword ∈ limitedKeywords).

(** The inner [forEach]: one increment for every element of [docData.keywords]
    that the query includes. *)
Definition currentScore (limitedKeywords : list jsstring) (docData : QARecord) : nat :=
  foldl (λ currentScore keyword,
           if includes limitedKeywords keyword then S currentScore
           else currentScore)
        0%nat (keywords docData).

(** The body of the outer [forEach]: replace only on a strictly better score
    ([currentScore > bestMatch.score]). *)
Definition consider (limitedKeywords : list jsstring) (bestMatch : Best)
    (docData : QARecord) : Best :=
  let cs := currentScore limitedKeywords docData in
  if decide (score bestMatch < cs)%nat then mkBest cs (answer docData)
  else bestMatch.

(** [bestMatch] after [querySnapshot.forEach]. *)
Definition bestMatch (limitedKeywords : list jsstring) (docs : list QARecord) : Best :=
  foldl (consider limitedKeywords) (mkBest 0 defaultResponse) docs.

(** The text of the bot message on the path where the query succeeded:
    [querySnapshot.empty] or the answer of [bestMatch]. *)
Definition selectBestAnswer (limitedKeywords : list jsstring)
    (docs : list QARecord) : jsstring :=
  match docs with
  | [] => defaultResponse
  | _ :: _ => bestAnswer (bestMatch limitedKeywords docs)
  end.

(** The largest [currentScore] among the documents (0 for none). *)
Definition maxScore (limitedKeywords : list jsstring) (docs : list QARecord) : nat :=
  foldr (λ d m, currentScore limitedKeywords d `max` m)%nat 0%nat docs.

(** The size of the intersection of the two keyword lists read as sets. *)
Definition overlap (limitedKeywords : list jsstring) (docData : QARecord) : nat :=
  size ((list_to_set (keywords docData) : gset jsstring) ∩ list_to_set limitedKeywords).

(** ** The turn *)

(** What [await q.get()] does: resolve with the documents of the snapshot, or
    reject. *)
Inductive QueryResult : Type :=
  | Snapshot (docs : list QARecord)
  | Rejected.

(** [db.collection('qna').where('keywords', 'array-contains-any', q).get()] *)
Definition Store : Type := list jsstring → QueryResult.

(** [WhiteSpace] and [LineTerminator] code units, as [trim] strips them. *)
Definition isWhiteSpace (c : code_unit) : bool :=
  ((9 <=? c) && (c <=? 13)) || (c =? 32) || (c =? 160) || (c =? 5760)
  || ((8192 <=? c) && (c <=? 8202)) || (c =? 8232) || (c =? 8233)
  || (c =? 8239) || (c =? 8287) || (c =? 12288) || (c =? 65279).

Fixpoint trimStart (s : jsstring) : jsstring :=
  match s with
  | [] => []
  | c :: s' => if isWhiteSpace c then trimStart s' else s
  end.

Definition trim (s : jsstring) : jsstring :=
  reverse (trimStart (reverse (trimStart s))).

Section Turn.
Variable toLowerCase : jsstring → jsstring.
Variable db : Store.

(** The [try] block with its [catch]. *)
Definition queryAndAnswer (limitedKeywords : list jsstring) (p : Page) : Page :=
  match db limitedKeywords with
  | Snapshot docs =>
      let p := hideTypingIndicator (log_query limitedKeywords p) in
      match docs with
      | [] => addMessage defaultResponse (js "bot-message") p
      | _ :: _ =>
          addMessage (bestAnswer (bestMatch limitedKeywords docs))
                     (js "bot-message") p
      end
  | Rejected =>
      addMessage troubleResponse (js "bot-message")
                 (hideTypingIndicator (log_query limitedKeywords p))
  end.

Definition getBotResponse (userText : jsstring) (p : Page) : Page :=
  let limitedKeywords := limitedKeywords toLowerCase userText in
  if decide (length limitedKeywords = 0%nat) then
    set_disabled false
      (addMessage defaultResponse (js "bot-message") (hideTypingIndicator p))
  else
    (* finally *)
    set_disabled false (queryAndAnswer limitedKeywords p).

(** The text of the bot message that the turn appends. *)
Definition botReply (userText : jsstring) : jsstring :=
  let limitedKeywords := limitedKeywords toLowerCase userText in
  if decide (length limitedKeywords = 0%nat) then defaultResponse
  else
    match db limitedKeywords with
    | Snapshot docs => selectBestAnswer limitedKeywords docs
    | Rejected => troubleResponse
    end.

Definition sendMessage (p : Page) : Page :=
  let messageText := trim (chatInput_value p) in
  if decide (messageText = []) then p
  else
    let p := addMessage messageText (js "user-message") p in
    let p := set_chatInput_value [] p in
    let p := set_disabled true p in
    let p := showTypingIndicator p in
    getBotResponse messageText p.
End Turn.

(** The page before the first message. *)
Definition emptyPage : Page := mkPage [] [] false false [].

(** ** Events *)

(** The message bubbles of the transcript: its children other than typing
    indicators. *)
Definition bubbles (p : Page) : list Element :=
  filter (λ e, id e ≠ js "typing-indicator") (chatMessages p).

(** What happens to the page between two turns: the user edits the text field
    (the browser sets [chatInput.value]), clicks [sendButton], or presses a key
    in [chatInput].  A click or a key press may start a turn; [db] is how the
    store answers the [q.get()] of that turn, which can differ from one turn
    to the next. *)
Inductive Event : Type :=
  | Edit (value : jsstring)
  | Click (db : Store)
  | KeyPress (key : jsstring) (db : Store).

Section Listeners.
Variable toLowerCase : jsstring → jsstring.

(** The two listeners registered at load time: [click] on the button calls
    [sendMessage]; [keypress] in the field calls it when [e.key === 'Enter']. *)
Definition dispatch (p : Page) (ev : Event) : Page :=
  match ev with
  | Edit value => set_chatInput_value value p
  | Click db => sendMessage toLowerCase db p
  | KeyPress key db =>
      if decide (key = js "Enter") then sendMessage toLowerCase db p else p
  end.

Definition run (events : list Event) (p : Page) : Page :=
  foldl dispatch p events.

(** The two bubbles of one completed turn. *)
Definition turnBubbles (db : Store) (messageText : jsstring) : list Element :=
  [messageDiv messageText (js "user-message");
   messageDiv (botReply toLowerCase db messageText) (js "bot-message")].
End Listeners.

(** The turns that a sequence of events asks for, read off the events alone:
    [value] is what the text field holds; an edit replaces it; a click or the
    Enter key sends it trimmed, with the store of that event, and empties the
    field, unless it is blank; any other key does nothing. *)
Fixpoint turnsOf (events : list Event) (value : jsstring) : list (jsstring * Store) :=
  match events with
  | [] => []
  | Edit value' :: events' => turnsOf events' value'
  | Click db :: events' =>
      if decide (trim value = []) then turnsOf events' value
      else (trim value, db) :: turnsOf events' []
  | KeyPress key db :: events' =>
      if decide (key = js "Enter") then
        if decide (trim value = []) then turnsOf events' value
        else (trim value, db) :: turnsOf events' []
      else turnsOf events' value
  end.

(** The words of [ws] written one after the other with the code unit [sep]
    between them, as [ws.join(sep)] does. *)
Fixpoint joinWords (sep : code_unit) (ws : list jsstring) : jsstring :=
  match ws with
  | [] => []
  | [w] => w
  | w :: ws' => w ++ sep :: joinWords sep ws'
  end.

(** * Properties *)

Example limitedKeywords_library :
  limitedKeywords toLowerCaseASCII (js "What time does the library open?")
  = [js "time"; js "library"; js "open"].
Proof. vm_compute. reflexivity. Qed.

(** ** Scoring one document *)

Section Scoring.
Context (q : list jsstring).

Lemma includes_elem_of (k : jsstring) : includes q k = true ↔ k ∈ q.
Proof. unfold includes. apply bool_decide_eq_true. Qed.

Lemma score_loop_count (ks : list jsstring) (n : nat) :
  foldl (λ cs k, if includes q k then S cs else cs) n ks
  = (n + length (filter (λ k, k ∈ q) ks))%nat.
Proof.
  revert n. induction ks as [|k ks IH]; intros n; simpl.
  - lia.
  - rewrite IH, filter_cons. unfold includes.
    case_bool_decide; case_decide; try done; simpl; lia.
Qed.

Lemma currentScore_count (d : QARecord) :
  currentScore q d = length (filter (λ k, k ∈ q) (keywords d)).
Proof. unfold currentScore. by rewrite score_loop_count. Qed.

Lemma consider_better (b : Best) (d : QARecord) :
  (score b < currentScore q d)%nat →
  consider q b d = mkBest (currentScore q d) (answer d).
Proof. intros H. unfold consider. by rewrite decide_True. Qed.

Lemma consider_keep (b : Best) (d : QARecord) :
  (currentScore q d ≤ score b)%nat → consider q b d = b.
Proof. intros H. unfold consider. rewrite decide_False; [done | lia]. Qed.

(** The outer loop from any running best [b]: either nothing beat [b], or
    the result is the first document that attains the largest score. *)
Lemma loop_first_max (docs : list QARecord) (b : Best) :
  (foldl (consider q) b docs = b
   ∧ ∀ d, d ∈ docs → (currentScore q d ≤ score b)%nat)
  ∨ (∃ l1 d l2,
        docs = l1 ++ d :: l2
        ∧ foldl (consider q) b docs = mkBest (currentScore q d) (answer d)
        ∧ (score b < currentScore q d)%nat
        ∧ (∀ d', d' ∈ l1 → (currentScore q d' < currentScore q d)%nat)
        ∧ (∀ d', d' ∈ l2 → (currentScore q d' ≤ currentScore q d)%nat)).
Proof.
  revert b. induction docs as [|d ds IH]; intros b.
  - left. split; [done | intros d Hd; by apply elem_of_nil in Hd].
  - simpl. destruct (decide (score b < currentScore q d)%nat) as [Hlt|Hge].
    + rewrite (consider_better _ _ Hlt).
      destruct (IH (mkBest (currentScore q d) (answer d)))
        as [[Heq Hall] | (l1 & d' & l2 & -> & Heq & Hlt' & H1 & H2)].
      * right. exists [], d, ds. simpl in *. repeat split; try done.
        intros d' Hd'. by apply elem_of_nil in Hd'.
      * right. exists (d :: l1), d', l2. simpl in *. repeat split; try done.
        -- lia.
        -- intros d'' [-> | Hin]%elem_of_cons; [done | by apply H1].
    + rewrite consider_keep by lia.
      destruct (IH b) as [[Heq Hall] | (l1 & d' & l2 & -> & Heq & Hlt' & H1 & H2)].
      * left. split; [done|].
        intros d' [-> | Hin]%elem_of_cons; [lia | by apply Hall].
      * right. exists (d :: l1), d', l2. simpl. repeat split; try done.
        intros d'' [-> | Hin]%elem_of_cons; [lia | by apply H1].
Qed.

Lemma maxScore_upper (docs : list QARecord) (d : QARecord) :
  d ∈ docs → (currentScore q d ≤ maxScore q docs)%nat.
Proof.
  induction docs as [|d' ds IH]; simpl.
  - by intros ?%elem_of_nil.
  - intros [-> | Hin]%elem_of_cons; [lia | specialize (IH Hin); lia].
Qed.

Lemma maxScore_attained (docs : list QARecord) :
  docs ≠ [] → ∃ d, d ∈ docs ∧ currentScore q d = maxScore q docs.
Proof.
  induction docs as [|d ds IH]; [done | intros _]. simpl.
  destruct ds as [|d' ds'].
  - exists d. split; [apply elem_of_cons; by left | simpl; lia].
  - destruct IH as (m & Hm & Hmax); [done|].
    destruct (decide (maxScore q (d' :: ds') ≤ currentScore q d)%nat).
    + exists d. split; [apply elem_of_cons; by left | lia].
    + exists m. split; [apply elem_of_cons; by right | lia].
Qed.

Lemma maxScore_zero (docs : list QARecord) :
  maxScore q docs = 0%nat ↔ ∀ d, d ∈ docs → currentScore q d = 0%nat.
Proof.
  split.
  - intros H d Hd. pose proof (maxScore_upper _ _ Hd). lia.
  - intros H. destruct docs as [|d ds]; [done|].
    destruct (maxScore_attained (d :: ds)) as (m & Hm & <-); [done|].
    by apply H.
Qed.

(** The result of the loop, in terms of the largest score. *)
Lemma bestMatch_first_max (docs : list QARecord) :
  (maxScore q docs = 0%nat ∧ bestMatch q docs = mkBest 0 defaultResponse)
  ∨ (∃ l1 d l2,
        docs = l1 ++ d :: l2
        ∧ bestMatch q docs = mkBest (currentScore q d) (answer d)
        ∧ (0 < currentScore q d)%nat
        ∧ currentScore q d = maxScore q docs
        ∧ (∀ d', d' ∈ l1 → (currentScore q d' < currentScore q d)%nat)
        ∧ (∀ d', d' ∈ l2 → (currentScore q d' ≤ currentScore q d)%nat)).
Proof.
  unfold bestMatch.
  destruct (loop_first_max docs (mkBest 0 defaultResponse))
    as [[Heq Hall] | (l1 & d & l2 & Hd & Heq & Hlt & H1 & H2)].
  - left. split; [|done]. apply maxScore_zero. intros d Hd.
    specialize (Hall d Hd). simpl in Hall. lia.
  - right. exists l1, d, l2. simpl in Hlt. repeat split; try done.
    apply Nat.le_antisymm.
    + apply maxScore_upper. subst docs. set_solver.
    + destruct (maxScore_attained docs) as (m & Hm & <-).
      { subst docs. by destruct l1. }
      subst docs. apply elem_of_app in Hm as [Hm | [-> | Hm]%elem_of_cons].
      * specialize (H1 m Hm). lia.
      * done.
      * by apply H2.
Qed.
End Scoring.

(** ** Selection *)

Lemma selectBestAnswer_bestMatch (q : list jsstring) (docs : list QARecord) :
  selectBestAnswer q docs = bestAnswer (bestMatch q docs).
Proof. by destruct docs. Qed.

Lemma positive_score_maxScore (q : list jsstring) (docs : list QARecord) :
  (∃ d, d ∈ docs ∧ (0 < currentScore q d)%nat) ↔ (0 < maxScore q docs)%nat.
Proof.
  split.
  - intros (d & Hd & Hpos). pose proof (maxScore_upper q docs d Hd). lia.
  - intros Hpos. destruct docs as [|d ds]; [simpl in Hpos; lia|].
    destruct (maxScore_attained q (d :: ds)) as (m & Hm & Heq); [done|].
    exists m. split; [done | lia].
Qed.

Lemma bestMatch_all_zero (q : list jsstring) (docs : list QARecord) :
  (∀ d, d ∈ docs → currentScore q d = 0%nat) →
  bestMatch q docs = mkBest 0 defaultResponse.
Proof.
  intros Hzero.
  destruct (bestMatch_first_max q docs)
    as [[_ Hb] | (l1 & d & l2 & Hd & _ & Hpos & _)]; [done|].
  assert (Hin : d ∈ docs) by (subst docs; set_solver).
  specialize (Hzero d Hin). lia.
Qed.

(** C1, as amended.  For every query and every sequence of retrieved documents:
    when no document was retrieved or every document scores 0, the default
    message is returned; when some document has a positive score, the answer
    returned is that of a retrieved document whose score is the largest score
    among the retrieved documents; and the default message comes back only in
    the first case or when the winning document itself stores the default text
    as its answer. *)
Theorem selectBestAnswer_max_or_default (q : list jsstring) (docs : list QARecord) :
  ((docs = [] ∨ ∀ d, d ∈ docs → currentScore q d = 0%nat) →
     selectBestAnswer q docs = defaultResponse)
  ∧ ((∃ d, d ∈ docs ∧ (0 < currentScore q d)%nat) →
       ∃ d, d ∈ docs
            ∧ currentScore q d = maxScore q docs
            ∧ score (bestMatch q docs) = currentScore q d
            ∧ selectBestAnswer q docs = answer d)
  ∧ (selectBestAnswer q docs = defaultResponse →
       docs = []
       ∨ (∀ d, d ∈ docs → currentScore q d = 0%nat)
       ∨ (∃ d, d ∈ docs
               ∧ (0 < currentScore q d)%nat
               ∧ currentScore q d = maxScore q docs
               ∧ answer d = defaultResponse)).
Proof.
  rewrite selectBestAnswer_bestMatch.
  destruct (bestMatch_first_max q docs)
    as [[Hz Hb] | (l1 & d & l2 & Hd & Hb & Hpos & Hmax & _ & _)].
  - rewrite Hb. simpl. split; [done|]. split.
    + intros Hex%positive_score_maxScore. lia.
    + intros _. right. left. by apply maxScore_zero.
  - assert (Hin : d ∈ docs) by (subst docs; set_solver).
    rewrite Hb. simpl. split; [|split].
    + intros [-> | Hall].
      * by destruct l1.
      * specialize (Hall d Hin). lia.
    + intros _. by exists d.
    + intros Hans. right. right. by exists d.
Qed.

(** C1, as stated, fails: a retrieved document that matches the query and
    stores the default text as its answer makes the default message come back
    although a document has positive overlap. *)
Lemma selectBestAnswer_default_not_exactly :
  let q := [js "a"] in
  let docs := [mkQA [js "a"] defaultResponse] in
  ¬ (selectBestAnswer q docs = defaultResponse
     ↔ (docs = [] ∨ ∀ d, d ∈ docs → currentScore q d = 0%nat)).
Proof.
  intros q docs [Hdefault _].
  destruct (Hdefault eq_refl) as [Hnil | Hzero]; [done|].
  assert (Hin : mkQA [js "a"] defaultResponse ∈ docs)
    by (apply list_elem_of_singleton; reflexivity).
  assert (Hone : currentScore q (mkQA [js "a"] defaultResponse) = 1%nat)
    by (vm_compute; reflexivity).
  specialize (Hzero _ Hin). rewrite Hone in Hzero. discriminate Hzero.
Qed.

Example selectBestAnswer_two_beats_one :
  selectBestAnswer [js "a"; js "b"]
    [mkQA [js "a"; js "b"] (js "X"); mkQA [js "a"] (js "Y")] = js "X".
Proof. vm_compute. reflexivity. Qed.

(** C8.  A document that scores 0 leaves the running best as it is, and when
    every retrieved document scores 0 the loop ends on the initial
    [(0, defaultResponse)] and the default message is returned. *)
Theorem zero_scores_keep_default (q : list jsstring) (docs : list QARecord) :
  (∀ d, d ∈ docs → currentScore q d = 0%nat) →
  (∀ b d, currentScore q d = 0%nat → consider q b d = b)
  ∧ bestMatch q docs = mkBest 0 defaultResponse
  ∧ selectBestAnswer q docs = defaultResponse.
Proof.
  intros Hzero. split; [|split].
  - intros b d Hd. apply consider_keep. lia.
  - by apply bestMatch_all_zero.
  - by rewrite selectBestAnswer_bestMatch, bestMatch_all_zero.
Qed.

Lemma zero_scores_keep_default_witness :
  selectBestAnswer [js "fees"]
    [mkQA [js "library"] (js "X"); mkQA [js "hostel"; js "mess"] (js "Y")]
  = defaultResponse.
Proof.
  apply (zero_scores_keep_default [js "fees"]
           [mkQA [js "library"] (js "X"); mkQA [js "hostel"; js "mess"] (js "Y")]).
  intros d Hd.
  apply elem_of_cons in Hd as [-> | Hd]; [vm_compute; reflexivity|].
  apply list_elem_of_singleton in Hd as ->. vm_compute. reflexivity.
Defined.

(** C3.  Replacement needs a strictly greater score: a document whose score
    equals the running best never replaces it, so whenever some document has a
    positive score the answer returned is that of the first document that
    attains the largest score (everything before it scores strictly less);
    and for two documents that both score 1 on the query ["a"], the answer of
    the first is returned. *)
Theorem first_wins_ties (q : list jsstring) (docs : list QARecord) :
  (∀ b d, currentScore q d = score b → consider q b d = b)
  ∧ ((0 < maxScore q docs)%nat →
       ∃ l1 d l2,
         docs = l1 ++ d :: l2
         ∧ currentScore q d = maxScore q docs
         ∧ (∀ d', d' ∈ l1 → (currentScore q d' < currentScore q d)%nat)
         ∧ (∀ d', d' ∈ l2 → (currentScore q d' ≤ currentScore q d)%nat)
         ∧ selectBestAnswer q docs = answer d)
  ∧ (∀ d1 d2,
       currentScore [js "a"] d1 = 1%nat → currentScore [js "a"] d2 = 1%nat →
       selectBestAnswer [js "a"] [d1; d2] = answer d1).
Proof.
  split; [|split].
  - intros b d Heq. apply consider_keep. lia.
  - intros Hpos. rewrite selectBestAnswer_bestMatch.
    destruct (bestMatch_first_max q docs)
      as [[Hz _] | (l1 & d & l2 & Hd & Hb & _ & Hmax & H1 & H2)]; [lia|].
    exists l1, d, l2. rewrite Hb. done.
  - intros d1 d2 H1 H2. simpl. unfold bestMatch. simpl.
    rewrite (consider_better [js "a"] _ d1) by (simpl; lia).
    rewrite consider_keep by (simpl; lia). done.
Qed.

Example first_wins_ties_X_Y :
  selectBestAnswer [js "a"] [mkQA [js "a"] (js "X"); mkQA [js "a"] (js "Y")]
  = js "X".
Proof. vm_compute. reflexivity. Qed.

(** ** Duplicates *)

Lemma list_to_set_repeated (x : jsstring) (l : list jsstring) :
  x ∈ l → ({[x]} ∪ list_to_set l : gset jsstring) = list_to_set l.
Proof.
  intros Hin. apply subseteq_union_1_L, singleton_subseteq_l.
  by apply elem_of_list_to_set.
Qed.

Lemma list_to_set_fresh (x : jsstring) (l : list jsstring) :
  x ∉ l → ({[x]} : gset jsstring) ## list_to_set l.
Proof.
  intros Hnin. apply disjoint_singleton_l. by rewrite elem_of_list_to_set.
Qed.

Lemma size_list_to_set_le (l : list jsstring) :
  (size (list_to_set l : gset jsstring) ≤ length l)%nat.
Proof.
  induction l as [|x l IH].
  - rewrite list_to_set_nil, size_empty. done.
  - rewrite list_to_set_cons. simpl length.
    destruct (decide (x ∈ l)) as [Hin|Hnin].
    + rewrite list_to_set_repeated by done. lia.
    + rewrite size_union by (by apply list_to_set_fresh).
      rewrite size_singleton. lia.
Qed.

Lemma size_list_to_set_NoDup (l : list jsstring) :
  size (list_to_set l : gset jsstring) = length l ↔ NoDup l.
Proof.
  split; [|apply size_list_to_set].
  induction l as [|x l IH]; [constructor|].
  rewrite list_to_set_cons. simpl length.
  intros Hsize. destruct (decide (x ∈ l)) as [Hin|Hnin].
  - rewrite list_to_set_repeated in Hsize by done.
    pose proof (size_list_to_set_le l). lia.
  - rewrite size_union, size_singleton in Hsize by (by apply list_to_set_fresh).
    apply NoDup_cons. split; [done|]. apply IH. lia.
Qed.

Lemma overlap_filter (q : list jsstring) (d : QARecord) :
  overlap q d = size (list_to_set (filter (λ k, k ∈ q) (keywords d)) : gset jsstring).
Proof.
  unfold overlap. f_equal. apply set_eq. intros k.
  rewrite elem_of_intersection, !elem_of_list_to_set, list_elem_of_filter.
  tauto.
Qed.

Lemma filter_all_elem_of (l : list jsstring) : filter (λ k, k ∈ l) l = l.
Proof.
  assert (H : ∀ l' : list jsstring,
             (∀ k, k ∈ l' → k ∈ l) → filter (λ k, k ∈ l) l' = l').
  { induction l' as [|k l' IH]; intros Hsub; [done|].
    rewrite filter_cons_True by (apply Hsub, elem_of_cons; by left).
    rewrite IH; [done|]. intros k' Hk'. apply Hsub, elem_of_cons. by right. }
  by apply H.
Qed.

(** C4.  Duplicates in the query do not inflate the score: a record whose
    keyword set is {"a","b"} scores 2 against ["a","a","b"]; in general the
    score only depends on which strings the query contains, not on how often,
    and it never exceeds the number of keywords of the record. *)
Theorem query_duplicates_do_not_inflate :
  (∀ d, NoDup (keywords d) →
        (∀ k, k ∈ keywords d ↔ k = js "a" ∨ k = js "b") →
        currentScore [js "a"; js "a"; js "b"] d = 2%nat)
  ∧ (∀ q q' d, (∀ k, k ∈ q ↔ k ∈ q') → currentScore q d = currentScore q' d)
  ∧ (∀ q d, (currentScore q d ≤ length (keywords d))%nat).
Proof.
  split; [|split].
  - intros d Hnd Hset. rewrite currentScore_count.
    assert (Hperm : keywords d ≡ₚ [js "a"; js "b"]).
    { apply NoDup_Permutation; [done | |].
      - apply NoDup_cons. split; [|apply NoDup_singleton].
        intros Hin%list_elem_of_singleton. discriminate Hin.
      - intros k. by rewrite Hset, elem_of_cons, list_elem_of_singleton. }
    rewrite Hperm. vm_compute. reflexivity.
  - intros q q' d Hsame. rewrite !currentScore_count. f_equal.
    apply list_filter_iff. intros k. apply Hsame.
  - intros q d. rewrite currentScore_count. apply length_filter.
Qed.

Example query_duplicates_score_two :
  currentScore [js "a"; js "a"; js "b"] (mkQA [js "a"; js "b"] (js "X")) = 2%nat
  ∧ currentScore [js "a"; js "a"; js "b"] (mkQA [js "b"; js "a"] (js "X")) = 2%nat.
Proof. split; vm_compute; reflexivity. Qed.

(** C10.  The score is the number of elements of the record's keyword list
    that the query includes, so every occurrence of a matching keyword counts:
    a record with keywords ["a","a"] scores 2 against ["a"], where the
    intersection has size 1.  The score is never below the size of the
    intersection; the two agree when the record's keyword list has no
    duplicates, for a given query exactly when no matching keyword occurs
    twice in it, and for every query exactly when the list has no
    duplicates. *)
Theorem currentScore_counts_occurrences :
  (∀ q d, currentScore q d = length (filter (λ k, k ∈ q) (keywords d)))
  ∧ (∀ q k ks a,
       currentScore q (mkQA (k :: ks) a)
       = ((if decide (k ∈ q) then 1 else 0) + currentScore q (mkQA ks a))%nat)
  ∧ (currentScore [js "a"] (mkQA [js "a"; js "a"] (js "X")) = 2%nat
     ∧ overlap [js "a"] (mkQA [js "a"; js "a"] (js "X")) = 1%nat)
  ∧ (∀ q d, (overlap q d ≤ currentScore q d)%nat)
  ∧ (∀ q d, NoDup (keywords d) → currentScore q d = overlap q d)
  ∧ (∀ q d, currentScore q d = overlap q d
            ↔ NoDup (filter (λ k, k ∈ q) (keywords d)))
  ∧ (∀ d, (∀ q, currentScore q d = overlap q d) ↔ NoDup (keywords d)).
Proof.
  assert (Hexact : ∀ q d, currentScore q d = overlap q d
                          ↔ NoDup (filter (λ k, k ∈ q) (keywords d))).
  { intros q d. rewrite currentScore_count, overlap_filter.
    rewrite <- size_list_to_set_NoDup. split; intros H; by symmetry. }
  split; [|split; [|split; [|split; [|split; [|split; [exact Hexact|]]]]]].
  - intros q d. apply currentScore_count.
  - intros q k ks a. rewrite !currentScore_count. simpl.
    rewrite filter_cons. by case_decide.
  - split; vm_compute; reflexivity.
  - intros q d. rewrite currentScore_count, overlap_filter.
    apply size_list_to_set_le.
  - intros q d Hnd. rewrite currentScore_count, overlap_filter.
    symmetry. apply size_list_to_set. by apply NoDup_filter.
  - intros d. split.
    + intros Hall. specialize (Hall (keywords d)). apply Hexact in Hall.
      rewrite filter_all_elem_of in Hall. done.
    + intros Hnd q. apply Hexact. by apply NoDup_filter.
Qed.

(** ** The typing indicator *)

Section Indicator.
Context (i : jsstring).

Lemma no_id_not_elem (l : list Element) (e : Element) :
  length (filter (λ e, id e = i) l) = 0%nat → e ∈ l → id e ≠ i.
Proof.
  intros Hlen He Hid.
  assert (Hin : e ∈ filter (λ e, id e = i) l) by (by apply list_elem_of_filter).
  apply length_zero_iff_nil in Hlen. rewrite Hlen in Hin.
  by apply elem_of_nil in Hin.
Qed.

Lemma find_id_none (l : list Element) :
  length (filter (λ e, id e = i) l) = 0%nat → getElementById i l = None.
Proof.
  intros Hlen. apply list_find_None, Forall_forall. intros e He.
  by apply (no_id_not_elem l).
Qed.

(** Removing the element that [getElementById] finds removes one element
    with that id; when it finds none there is none. *)
Lemma find_id_delete (l : list Element) :
  match getElementById i l with
  | Some (n, e) =>
      id e = i
      ∧ S (length (filter (λ e, id e = i) (delete n l)))
        = length (filter (λ e, id e = i) l)
  | None => length (filter (λ e, id e = i) l) = 0%nat
  end.
Proof.
  unfold getElementById. induction l as [|x l IH]; simpl; [done|].
  rewrite filter_cons. destruct (decide (id x = i)) as [Hx|Hx].
  - split; [done|]. done.
  - destruct (list_find (λ e, id e = i) l) as [[n e]|]; simpl.
    + destruct IH as [He IH]. split; [done|].
      rewrite filter_cons, decide_False by done. done.
    + done.
Qed.

Lemma find_id_snoc (l : list Element) (x : Element) :
  length (filter (λ e, id e = i) l) = 0%nat → id x = i →
  getElementById i (l ++ [x]) = Some (length l, x).
Proof.
  intros Hnone Hx. unfold getElementById. apply list_find_Some.
  split; [|split].
  - by apply list_lookup_middle.
  - done.
  - intros j y Hj Hlt. rewrite lookup_app_l in Hj by done.
    apply (no_id_not_elem l); [done|]. by eapply list_elem_of_lookup_2.
Qed.
End Indicator.

Lemma delete_snoc {A} (l : list A) (x : A) : delete (length l) (l ++ [x]) = l.
Proof. induction l as [|y l IH]; simpl; [done | by rewrite IH]. Qed.

Lemma hide_noop (p : Page) : indicators p = 0%nat → hideTypingIndicator p = p.
Proof.
  unfold indicators, hideTypingIndicator. intros Hnone.
  by rewrite (find_id_none _ _ Hnone).
Qed.

Lemma indicators_hide (p : Page) :
  indicators (hideTypingIndicator p) = (indicators p - 1)%nat.
Proof.
  unfold indicators, hideTypingIndicator.
  pose proof (find_id_delete (js "typing-indicator") (chatMessages p)) as H.
  destruct (getElementById _ _) as [[n e]|].
  - destruct H as [_ H]. simpl. lia.
  - lia.
Qed.

Lemma indicators_show (p : Page) :
  indicators (showTypingIndicator p) = S (indicators p).
Proof.
  unfold indicators, showTypingIndicator, set_chatMessages.
  cbn [chatMessages].
  rewrite filter_app, length_app, filter_cons, decide_True by done.
  rewrite filter_nil. simpl. lia.
Qed.

(** C9, as stated, fails for [show]: a second call appends a second
    indicator. *)
Lemma show_twice_differs :
  showTypingIndicator (showTypingIndicator emptyPage)
  ≠ showTypingIndicator emptyPage.
Proof. intros H. apply (f_equal indicators) in H. vm_compute in H. discriminate H. Qed.

(** C9, as amended.  [hide] is a no-op when no indicator is shown, removes
    one indicator otherwise, undoes a [show] made when none was shown, and is
    idempotent whenever at most one indicator is shown.  [show] is not
    idempotent: every call appends one more indicator to the transcript. *)
Theorem typing_indicator_show_hide (p : Page) :
  (indicators p = 0%nat → hideTypingIndicator p = p)
  ∧ indicators (hideTypingIndicator p) = (indicators p - 1)%nat
  ∧ ((indicators p ≤ 1)%nat →
       hideTypingIndicator (hideTypingIndicator p) = hideTypingIndicator p)
  ∧ (indicators p = 0%nat → hideTypingIndicator (showTypingIndicator p) = p)
  ∧ indicators (showTypingIndicator p) = S (indicators p)
  ∧ chatMessages (showTypingIndicator (showTypingIndicator p))
    = chatMessages (showTypingIndicator p) ++ [indicatorDiv]
  ∧ showTypingIndicator (showTypingIndicator p) ≠ showTypingIndicator p.
Proof.
  split; [apply hide_noop|]. split; [apply indicators_hide|].
  split; [|split; [|split; [apply indicators_show|split; [done|]]]].
  - intros Hle. apply hide_noop. rewrite indicators_hide. lia.
  - intros Hnone. unfold hideTypingIndicator, showTypingIndicator. simpl.
    rewrite (find_id_snoc _ _ indicatorDiv Hnone) by done.
    destruct p as [msgs v d1 d2 qs]. unfold set_chatMessages. simpl.
    by rewrite delete_snoc.
  - intros H. apply (f_equal indicators) in H.
    rewrite !indicators_show in H. lia.
Qed.

(** ** Tokens *)

Lemma closeRun_elem (run w : jsstring) : w ∈ closeRun run → w = run ∧ run ≠ [].
Proof.
  destruct run as [|c run]; simpl.
  - by intros ?%elem_of_nil.
  - by intros ->%list_elem_of_singleton.
Qed.

(** Reading on through word characters only extends the current run. *)
Lemma wordRuns_word_prefix (w s run : jsstring) :
  Forall (λ c, isWordChar c = true) w →
  wordRuns run (w ++ s) = wordRuns (run ++ w) s.
Proof.
  intros Hw. revert run. induction Hw as [|c w Hc Hw IH]; intros run; simpl.
  - by rewrite app_nil_r.
  - rewrite Hc, IH, <- app_assoc. done.
Qed.

(** A maximal run of word characters is one match, and the scan goes on after
    the code unit that ended it. *)
Lemma wordRuns_maximal_run (w : jsstring) (c : code_unit) (s : jsstring) :
  w ≠ [] → Forall (λ c, isWordChar c = true) w → isWordChar c = false →
  wordRuns [] (w ++ c :: s) = w :: wordRuns [] s.
Proof.
  intros Hne Hw Hc. rewrite wordRuns_word_prefix by done. simpl.
  rewrite Hc. by destruct w.
Qed.

Lemma wordRuns_last_run (w : jsstring) :
  w ≠ [] → Forall (λ c, isWordChar c = true) w → wordRuns [] w = [w].
Proof.
  intros Hne Hw. rewrite <- (app_nil_r w) at 1.
  rewrite wordRuns_word_prefix by done. simpl. by destruct w.
Qed.

(** Every match is a non-empty run of word characters. *)
Lemma wordRuns_words (s run w : jsstring) :
  Forall (λ c, isWordChar c = true) run → w ∈ wordRuns run s →
  w ≠ [] ∧ Forall (λ c, isWordChar c = true) w.
Proof.
  revert run. induction s as [|c s IH]; intros run Hrun; simpl.
  - intros [-> Hne]%closeRun_elem. done.
  - destruct (isWordChar c) eqn:Hc.
    + apply IH. apply Forall_app. split; [done | by constructor].
    + intros [[-> Hne]%closeRun_elem | Hin]%elem_of_app; [done|].
      by apply (IH []).
Qed.

Lemma wordRuns_no_word_char (s : jsstring) :
  (∀ c, c ∈ s → isWordChar c = false) → wordRuns [] s = [].
Proof.
  induction s as [|c s IH]; intros Hs; simpl; [done|].
  rewrite (Hs c) by (apply elem_of_cons; by left). simpl.
  apply IH. intros c' Hc'. apply Hs, elem_of_cons. by right.
Qed.

Lemma isWordChar_lowerUnit (c : code_unit) : isWordChar (lowerUnit c) = isWordChar c.
Proof.
  unfold lowerUnit. destruct ((65 <=? c) && (c <=? 90)) eqn:Hup; [|done].
  apply andb_true_iff in Hup as [H65 H90].
  assert (H97 : (97 <=? c + 32) = true)
    by (apply N.leb_le in H65; apply N.leb_le; lia).
  assert (H122 : (c + 32 <=? 122) = true)
    by (apply N.leb_le in H90; apply N.leb_le; lia).
  unfold isWordChar. rewrite H65, H90, H97, H122. cbn [andb].
  rewrite !orb_true_r. reflexivity.
Qed.

(** Lowering ASCII letters moves no word boundary. *)
Lemma wordRuns_toLowerCaseASCII (s run : jsstring) :
  wordRuns (toLowerCaseASCII run) (toLowerCaseASCII s)
  = toLowerCaseASCII <$> wordRuns run s.
Proof.
  unfold toLowerCaseASCII. revert run.
  induction s as [|c s IH]; intros run; simpl.
  - by destruct run.
  - rewrite isWordChar_lowerUnit. destruct (isWordChar c).
    + rewrite <- IH, fmap_app. done.
    + rewrite fmap_app, <- (IH []). by destruct run.
Qed.

Section KeywordFacts.
Context (toLowerCase : jsstring → jsstring).

Lemma allWords_wordRuns (text : jsstring) :
  allWords toLowerCase text = wordRuns [] (toLowerCase text).
Proof. unfold allWords, match_words. by destruct (wordRuns _ _). Qed.

Lemma stopWords_has_elem_of (w : jsstring) :
  stopWords_has w = true ↔ w ∈ stopWordList.
Proof.
  unfold stopWords_has, stopWords.
  rewrite bool_decide_eq_true. apply elem_of_list_to_set.
Qed.

Lemma userKeywords_elem_of (text w : jsstring) :
  w ∈ userKeywords toLowerCase text
  ↔ w ∈ allWords toLowerCase text ∧ w ∉ stopWords.
Proof.
  unfold userKeywords, stopWords_has. rewrite list_elem_of_filter.
  rewrite negb_true_iff, bool_decide_eq_false. tauto.
Qed.

Lemma limitedKeywords_take (text : jsstring) :
  limitedKeywords toLowerCase text = take 10 (userKeywords toLowerCase text).
Proof. unfold limitedKeywords, slice. done. Qed.

Lemma limitedKeywords_nil (text : jsstring) :
  limitedKeywords toLowerCase text = [] ↔ userKeywords toLowerCase text = [].
Proof.
  rewrite limitedKeywords_take.
  destruct (userKeywords toLowerCase text); simpl; split; done.
Qed.

Lemma only_stop_words_nil (text : jsstring) :
  (∀ w, w ∈ allWords toLowerCase text → w ∈ stopWords) →
  limitedKeywords toLowerCase text = [].
Proof.
  intros Hall. apply limitedKeywords_nil.
  destruct (userKeywords toLowerCase text) as [|w ws] eqn:Hk; [done|].
  assert (Hw : w ∈ userKeywords toLowerCase text)
    by (rewrite Hk; apply elem_of_cons; by left).
  apply userKeywords_elem_of in Hw as [Hw Hnot]. destruct (Hnot (Hall w Hw)).
Qed.
End KeywordFacts.

(** C2.  The keyword list has at most 10 entries and none of them is a stop
    word; it is the first 10 entries (all of them when there are fewer) of the
    tokens that survive the stop-word filter, which are the tokens of the
    lowercased text that are no stop word, in the order in which they occur in
    the text. *)
Theorem limitedKeywords_at_most_ten (toLowerCase : jsstring → jsstring)
    (text : jsstring) :
  (length (limitedKeywords toLowerCase text) ≤ 10)%nat
  ∧ (∀ w, w ∈ limitedKeywords toLowerCase text →
          stopWords_has w = false ∧ w ∉ stopWordList)
  ∧ limitedKeywords toLowerCase text = take 10 (userKeywords toLowerCase text)
  ∧ length (limitedKeywords toLowerCase text)
    = (10 `min` length (userKeywords toLowerCase text))%nat
  ∧ limitedKeywords toLowerCase text `prefix_of` userKeywords toLowerCase text
  ∧ userKeywords toLowerCase text `sublist_of` allWords toLowerCase text
  ∧ (∀ w, w ∈ userKeywords toLowerCase text
          ↔ w ∈ allWords toLowerCase text ∧ stopWords_has w = false).
Proof.
  rewrite limitedKeywords_take.
  split; [rewrite length_take; lia|].
  split; [|split; [done|split; [apply length_take|split; [apply prefix_take|split]]]].
  - intros w Hw%subseteq_take. apply userKeywords_elem_of in Hw as [_ Hw].
    split.
    + unfold stopWords_has. by apply bool_decide_eq_false.
    + intros Hin. apply Hw. by apply elem_of_list_to_set.
  - unfold userKeywords. exact (sublist_filter _ _).
  - intros w. rewrite userKeywords_elem_of. unfold stopWords_has.
    by rewrite bool_decide_eq_false.
Qed.

Example limitedKeywords_truncates :
  limitedKeywords toLowerCaseASCII
    (js "Fee, hostel, bus, mess, lab, gym, cafe, bank, exam, quiz, book, pen")
  = js <$> ["fee"; "hostel"; "bus"; "mess"; "lab"; "gym"; "cafe"; "bank";
            "exam"; "quiz"]%string.
Proof. vm_compute. reflexivity. Qed.

(** ** The turn *)

Lemma currentScore_empty_query (d : QARecord) : currentScore [] d = 0%nat.
Proof.
  rewrite currentScore_count. apply length_zero_iff_nil.
  induction (keywords d) as [|k ks IH]; [done|].
  rewrite filter_cons_False; [done | apply not_elem_of_nil].
Qed.

Section TurnFacts.
Context (toLowerCase : jsstring → jsstring) (db : Store).

Lemma chatMessages_hide_log (q : list jsstring) (p : Page) :
  chatMessages (hideTypingIndicator (log_query q p))
  = chatMessages (hideTypingIndicator p).
Proof.
  unfold hideTypingIndicator, log_query. simpl.
  by destruct (getElementById _ _) as [[n e]|].
Qed.

Lemma issued_hide (p : Page) : issued (hideTypingIndicator p) = issued p.
Proof.
  unfold hideTypingIndicator. by destruct (getElementById _ _) as [[n e]|].
Qed.

(** The transcript after the turn: the indicator is hidden and one bot message
    is appended. *)
Lemma chatMessages_getBotResponse (text : jsstring) (p : Page) :
  chatMessages (getBotResponse toLowerCase db text p)
  = chatMessages (hideTypingIndicator p)
    ++ [messageDiv (botReply toLowerCase db text) (js "bot-message")].
Proof.
  unfold getBotResponse, botReply, queryAndAnswer.
  destruct (decide _) as [Hlen|Hlen]; [done|].
  destruct (db _) as [[|d docs]|]; simpl; by rewrite chatMessages_hide_log.
Qed.

(** The queries sent during the turn: none without keywords, one otherwise. *)
Lemma issued_getBotResponse (text : jsstring) (p : Page) :
  issued (getBotResponse toLowerCase db text p)
  = if decide (limitedKeywords toLowerCase text = []) then issued p
    else issued p ++ [limitedKeywords toLowerCase text].
Proof.
  unfold getBotResponse, queryAndAnswer.
  destruct (limitedKeywords toLowerCase text) as [|k ks] eqn:Hk.
  - simpl. apply issued_hide.
  - rewrite decide_False by done. rewrite decide_False by done.
    destruct (db _) as [[|d docs]|]; simpl; by rewrite issued_hide.
Qed.

Lemma disabled_getBotResponse (text : jsstring) (p : Page) :
  chatInput_disabled (getBotResponse toLowerCase db text p) = false
  ∧ sendButton_disabled (getBotResponse toLowerCase db text p) = false.
Proof. unfold getBotResponse. by destruct (decide _). Qed.

Lemma botReply_no_keywords (text : jsstring) :
  limitedKeywords toLowerCase text = [] →
  botReply toLowerCase db text = defaultResponse.
Proof. intros Hk. unfold botReply. by rewrite Hk. Qed.

Lemma botReply_rejected (text : jsstring) :
  limitedKeywords toLowerCase text ≠ [] →
  db (limitedKeywords toLowerCase text) = Rejected →
  botReply toLowerCase db text = troubleResponse.
Proof.
  intros Hk Hdb. unfold botReply. rewrite Hdb.
  rewrite decide_False; [done|]. by destruct (limitedKeywords _ _).
Qed.

Lemma botReply_snapshot (text : jsstring) (docs : list QARecord) :
  limitedKeywords toLowerCase text ≠ [] →
  db (limitedKeywords toLowerCase text) = Snapshot docs →
  botReply toLowerCase db text
  = selectBestAnswer (limitedKeywords toLowerCase text) docs.
Proof.
  intros Hk Hdb. unfold botReply. rewrite Hdb.
  rewrite decide_False; [done|]. by destruct (limitedKeywords _ _).
Qed.
End TurnFacts.

(** A whole turn against a store that holds one record about the library:
    the message is trimmed, shown, answered, and the controls are enabled
    again. *)
Example end_to_end_library :
  let db := λ _, Snapshot [mkQA [js "library"; js "timing"] (js "9am to 5pm")] in
  let p := set_chatInput_value (js "  What time does the library open? ") emptyPage in
  sendMessage toLowerCaseASCII db p
  = mkPage [messageDiv (js "What time does the library open?") (js "user-message");
            messageDiv (js "9am to 5pm") (js "bot-message")]
           [] false false [[js "time"; js "library"; js "open"]].
Proof. vm_compute. reflexivity. Qed.

(** C5.  When the keyword list is empty the turn appends the default message
    at once: no query is sent, and the resulting page is the same whatever the
    store holds, so nothing of the store is read or scored.  (With an empty
    query the scoring loop itself would also end on the default message.) *)
Theorem empty_keywords_no_query (toLowerCase : jsstring → jsstring) (db : Store)
    (text : jsstring) (p : Page) :
  limitedKeywords toLowerCase text = [] →
  getBotResponse toLowerCase db text p
  = set_disabled false
      (addMessage defaultResponse (js "bot-message") (hideTypingIndicator p))
  ∧ botReply toLowerCase db text = defaultResponse
  ∧ issued (getBotResponse toLowerCase db text p) = issued p
  ∧ (∀ db', getBotResponse toLowerCase db' text p
            = getBotResponse toLowerCase db text p)
  ∧ (∀ docs, selectBestAnswer [] docs = defaultResponse).
Proof.
  intros Hk. split; [|split; [|split; [|split]]].
  - unfold getBotResponse. by rewrite Hk.
  - by apply botReply_no_keywords.
  - rewrite issued_getBotResponse. by rewrite decide_True.
  - intros db'. unfold getBotResponse. by rewrite Hk.
  - intros docs. rewrite selectBestAnswer_bestMatch, bestMatch_all_zero; [done|].
    intros d _. apply currentScore_empty_query.
Qed.

Lemma empty_keywords_no_query_witness :
  limitedKeywords toLowerCaseASCII (js "What is this?") = []
  ∧ issued (getBotResponse toLowerCaseASCII
              (λ _, Snapshot [mkQA [js "what"] (js "X")])
              (js "What is this?") (showTypingIndicator emptyPage))
    = [].
Proof.
  split; [vm_compute; reflexivity|].
  apply (empty_keywords_no_query toLowerCaseASCII
           (λ _, Snapshot [mkQA [js "what"] (js "X")])
           (js "What is this?") (showTypingIndicator emptyPage)).
  vm_compute. reflexivity.
Defined.

(** C6.  A text whose word tokens are all stop words, or that has no word
    token at all (punctuation and whitespace only, or empty), yields the empty
    keyword list.  For every lowercasing this holds with the tokens read off
    the lowercased text; and on every text in which lowercasing changes nothing
    but the letters [A-Z], as the built-in does on stop words, punctuation and
    whitespace, it holds with the condition on the text itself: each maximal
    run of word characters is a stop word up to letter case, or the text has
    no word character.  The outcome is not an error: the turn then answers
    with the default message. *)
Theorem only_stop_words_no_keywords :
  (∀ toLowerCase text,
     (∀ w, w ∈ allWords toLowerCase text → stopWords_has w = true) →
     limitedKeywords toLowerCase text = [])
  ∧ (∀ toLowerCase text,
       (∀ c, c ∈ toLowerCase text → isWordChar c = false) →
       allWords toLowerCase text = [] ∧ limitedKeywords toLowerCase text = [])
  ∧ (∀ toLowerCase text,
       toLowerCase text = toLowerCaseASCII text →
       (∀ w, w ∈ wordRuns [] text → stopWords_has (toLowerCaseASCII w) = true) →
       limitedKeywords toLowerCase text = [])
  ∧ (∀ toLowerCase text,
       toLowerCase text = toLowerCaseASCII text →
       (∀ c, c ∈ text → isWordChar c = false) →
       limitedKeywords toLowerCase text = [])
  ∧ (∀ toLowerCase db text p,
       limitedKeywords toLowerCase text = [] →
       last (chatMessages (getBotResponse toLowerCase db text p))
       = Some (messageDiv defaultResponse (js "bot-message"))).
Proof.
  assert (H1 : ∀ toLowerCase text,
             (∀ w, w ∈ allWords toLowerCase text → stopWords_has w = true) →
             limitedKeywords toLowerCase text = []).
  { intros tl text Hall. apply only_stop_words_nil. intros w Hw.
    apply Hall in Hw. unfold stopWords_has in Hw.
    by apply bool_decide_eq_true in Hw. }
  assert (H3 : ∀ toLowerCase text,
             toLowerCase text = toLowerCaseASCII text →
             (∀ w, w ∈ wordRuns [] text → stopWords_has (toLowerCaseASCII w) = true) →
             limitedKeywords toLowerCase text = []).
  { intros tl text Hlow Hall. apply H1. intros w.
    rewrite allWords_wordRuns, Hlow.
    change [] with (toLowerCaseASCII []) at 1.
    rewrite wordRuns_toLowerCaseASCII.
    intros (w' & -> & Hw')%list_elem_of_fmap. by apply Hall. }
  split; [exact H1|]. split; [|split; [exact H3|split]].
  - intros tl text Hnone.
    assert (Hno : allWords tl text = [])
      by (rewrite allWords_wordRuns; by apply wordRuns_no_word_char).
    split; [done|]. apply H1. rewrite Hno.
    intros w Hw. destruct (proj1 (elem_of_nil w) Hw).
  - intros tl text Hlow Hnone. apply H3; [done|].
    rewrite wordRuns_no_word_char by done.
    intros w Hw. destruct (proj1 (elem_of_nil w) Hw).
  - intros tl db text p Hk.
    rewrite chatMessages_getBotResponse, botReply_no_keywords by done.
    apply last_snoc.
Qed.

Example only_stop_words_examples :
  limitedKeywords toLowerCaseASCII (js "The AND of, or... Not!") = []
  ∧ limitedKeywords toLowerCaseASCII (js " ?!  ... -- ") = []
  ∧ limitedKeywords toLowerCaseASCII (js "") = [].
Proof. repeat split; vm_compute; reflexivity. Qed.

(** C7.  Every path of [getBotResponse] ends with the text field and the send
    button enabled, and sends at most one query.  When the query is rejected,
    the indicator is hidden, the fixed message about the knowledge base is the
    last message of the transcript, and exactly one query was sent.  A turn
    started by [sendMessage] ends with both controls enabled as well. *)
Theorem input_reenabled_on_every_path (toLowerCase : jsstring → jsstring)
    (db : Store) (text : jsstring) (p : Page) :
  chatInput_disabled (getBotResponse toLowerCase db text p) = false
  ∧ sendButton_disabled (getBotResponse toLowerCase db text p) = false
  ∧ (issued (getBotResponse toLowerCase db text p) = issued p
     ∨ issued (getBotResponse toLowerCase db text p)
       = issued p ++ [limitedKeywords toLowerCase text])
  ∧ (limitedKeywords toLowerCase text ≠ [] →
     db (limitedKeywords toLowerCase text) = Rejected →
     chatMessages (getBotResponse toLowerCase db text p)
     = chatMessages (hideTypingIndicator p)
       ++ [messageDiv troubleResponse (js "bot-message")]
     ∧ issued (getBotResponse toLowerCase db text p)
       = issued p ++ [limitedKeywords toLowerCase text])
  ∧ (trim (chatInput_value p) ≠ [] →
     chatInput_disabled (sendMessage toLowerCase db p) = false
     ∧ sendButton_disabled (sendMessage toLowerCase db p) = false).
Proof.
  split; [apply disabled_getBotResponse|]. split; [apply disabled_getBotResponse|].
  split; [|split].
  - rewrite issued_getBotResponse. destruct (decide _); [by left | by right].
  - intros Hk Hdb. split.
    + by rewrite chatMessages_getBotResponse, botReply_rejected.
    + rewrite issued_getBotResponse. by rewrite decide_False.
  - intros Hmsg. unfold sendMessage. rewrite decide_False by done.
    apply disabled_getBotResponse.
Qed.

Example rejected_query_turn :
  let p := set_chatInput_value (js "Hostel fee?") emptyPage in
  sendMessage toLowerCaseASCII (λ _, Rejected) p
  = mkPage [messageDiv (js "Hostel fee?") (js "user-message");
            messageDiv troubleResponse (js "bot-message")]
           [] false false [[js "hostel"; js "fee"]].
Proof. vm_compute. reflexivity. Qed.

(** * Further properties of the script *)

(** ** [trim] and the guard of [sendMessage] *)

Lemma trimStart_split (s : jsstring) :
  ∃ pre, s = pre ++ trimStart s
         ∧ Forall (λ c, isWhiteSpace c = true) pre
         ∧ ∀ c, head (trimStart s) = Some c → isWhiteSpace c = false.
Proof.
  induction s as [|c s (pre & Hs & Hpre & Hhead)]; simpl.
  - exists []. by repeat split.
  - destruct (isWhiteSpace c) eqn:Hc.
    + exists (c :: pre). repeat split; [by rewrite Hs at 1 | by constructor | done].
    + exists []. repeat split; [done|]. simpl. by intros c' [= <-].
Qed.

Lemma trimStart_nil (s : jsstring) :
  trimStart s = [] ↔ Forall (λ c, isWhiteSpace c = true) s.
Proof.
  split.
  - intros Hnil. destruct (trimStart_split s) as (pre & Hs & Hpre & _).
    rewrite Hnil, app_nil_r in Hs. by subst.
  - induction 1 as [|c s Hc _ IH]; simpl; [done | by rewrite Hc].
Qed.

Lemma head_app_ne {A} (l k : list A) : l ≠ [] → head (l ++ k) = head l.
Proof. by destruct l. Qed.

(** What [trim] leaves and what it strips. *)
Lemma trim_split (s : jsstring) :
  ∃ pre post,
    s = pre ++ trim s ++ post
    ∧ Forall (λ c, isWhiteSpace c = true) pre
    ∧ Forall (λ c, isWhiteSpace c = true) post
    ∧ (∀ c, head (trim s) = Some c → isWhiteSpace c = false)
    ∧ (∀ c, last (trim s) = Some c → isWhiteSpace c = false).
Proof.
  destruct (trimStart_split s) as (pre & Hs & Hpre & Hhead).
  destruct (trimStart_split (reverse (trimStart s))) as (post & Ht & Hpost & Hlast).
  assert (Ht' : trimStart s = trim s ++ reverse post).
  { unfold trim. rewrite <- reverse_app, <- Ht. by rewrite reverse_involutive. }
  exists pre, (reverse post). split; [by rewrite <- Ht'|].
  split; [done|]. split; [by apply Forall_reverse|]. split.
  - intros c Hc. apply Hhead. rewrite Ht', head_app_ne; [done|].
    intros Hnil. by rewrite Hnil in Hc.
  - intros c Hc. apply Hlast. unfold trim in Hc.
    by rewrite last_reverse in Hc.
Qed.

Lemma trim_nil (s : jsstring) :
  trim s = [] ↔ Forall (λ c, isWhiteSpace c = true) s.
Proof.
  split.
  - intros Hnil.
    destruct (trimStart_split s) as (pre & Hs & Hpre & Hhead).
    destruct (trim_split s) as (pre' & post & _ & _ & _ & _ & _).
    unfold trim in Hnil. apply (f_equal reverse) in Hnil.
    rewrite reverse_involutive in Hnil. simpl in Hnil.
    apply trimStart_nil, Forall_reverse in Hnil.
    rewrite reverse_involutive in Hnil.
    destruct (trimStart s) as [|c t] eqn:Ht.
    + rewrite app_nil_r in Hs. by subst.
    + apply Forall_cons in Hnil as [Hc _].
      specialize (Hhead c eq_refl). congruence.
  - intros Hall. unfold trim. apply trimStart_nil in Hall. by rewrite Hall.
Qed.

Lemma trim_idem (s : jsstring) : trim (trim s) = trim s.
Proof.
  destruct (trim_split s) as (pre & post & _ & _ & _ & Hhead & Hlast).
  assert (Hfix : ∀ t : jsstring,
             (∀ c, head t = Some c → isWhiteSpace c = false) →
             trimStart t = t).
  { intros [|c t] Ht; simpl; [done|]. by rewrite (Ht c eq_refl). }
  unfold trim at 1. rewrite (Hfix (trim s)) by done.
  rewrite (Hfix (reverse (trim s))).
  - apply reverse_involutive.
  - intros c Hc. apply Hlast. by rewrite <- head_reverse.
Qed.

(** X6.  The text that [sendMessage] shows and sends is the field's value
    without the whitespace around it: the value is that text between two runs
    of whitespace, and the text neither starts nor ends with whitespace.
    Trimming it again changes nothing. *)
Theorem trim_strips_surrounding_whitespace (s : jsstring) :
  (∃ pre post,
     s = pre ++ trim s ++ post
     ∧ Forall (λ c, isWhiteSpace c = true) pre
     ∧ Forall (λ c, isWhiteSpace c = true) post)
  ∧ (∀ c, head (trim s) = Some c → isWhiteSpace c = false)
  ∧ (∀ c, last (trim s) = Some c → isWhiteSpace c = false)
  ∧ trim (trim s) = trim s.
Proof.
  destruct (trim_split s) as (pre & post & Hs & Hpre & Hpost & Hhead & Hlast).
  split; [by exists pre, post|]. split; [done|]. split; [done|].
  apply trim_idem.
Qed.

(** ** The transcript across a turn *)

Lemma typing_indicator_inverse (p : Page) :
  indicators p = 0%nat → hideTypingIndicator (showTypingIndicator p) = p.
Proof.
  intros Hnone. unfold hideTypingIndicator, showTypingIndicator. simpl.
  rewrite (find_id_snoc _ _ indicatorDiv Hnone) by done.
  destruct p as [msgs v d1 d2 qs]. unfold set_chatMessages. simpl.
  by rewrite delete_snoc.
Qed.

(** Removing the element that [getElementById] finds leaves the elements with
    another id as they are. *)
Lemma find_id_delete_others (i : jsstring) (l : list Element) (n : nat) (e : Element) :
  getElementById i l = Some (n, e) →
  filter (λ e, id e ≠ i) (delete n l) = filter (λ e, id e ≠ i) l.
Proof.
  unfold getElementById. revert n.
  induction l as [|x l IH]; intros n; simpl; [done|].
  destruct (decide (id x = i)) as [Hx|Hx].
  - intros [= <- <-]. simpl.
    rewrite (filter_cons_False _ x); [done | by intros Hne; apply Hne].
  - destruct (list_find (λ e, id e = i) l) as [[m y]|] eqn:Hfind; [|done].
    simpl. intros [= <- <-]. simpl.
    by rewrite !filter_cons_True, (IH m) by done.
Qed.

Lemma bubbles_hide (p : Page) : bubbles (hideTypingIndicator p) = bubbles p.
Proof.
  unfold bubbles, hideTypingIndicator.
  destruct (getElementById _ _) as [[n e]|] eqn:Hfind; [|done].
  simpl. by apply (find_id_delete_others _ _ n e).
Qed.

Lemma bubbles_no_indicator (p : Page) :
  indicators p = 0%nat → bubbles p = chatMessages p.
Proof.
  unfold indicators, bubbles. intros Hnone.
  induction (chatMessages p) as [|e l IH]; [done|].
  rewrite filter_cons in Hnone. destruct (decide (id e = _)) as [He|He].
  - simpl in Hnone. lia.
  - rewrite filter_cons_True by done. by rewrite IH.
Qed.

Section TranscriptFacts.
Context (toLowerCase : jsstring → jsstring) (db : Store).

Lemma sendMessage_blank (p : Page) :
  trim (chatInput_value p) = [] → sendMessage toLowerCase db p = p.
Proof. intros Hnil. unfold sendMessage. by rewrite decide_True. Qed.

Lemma sendMessage_turn (p : Page) :
  trim (chatInput_value p) ≠ [] →
  sendMessage toLowerCase db p
  = getBotResponse toLowerCase db (trim (chatInput_value p))
      (showTypingIndicator
         (set_disabled true
            (set_chatInput_value []
               (addMessage (trim (chatInput_value p)) (js "user-message") p)))).
Proof. intros Hne. unfold sendMessage. by rewrite decide_False. Qed.

Lemma chatInput_value_getBotResponse (text : jsstring) (p : Page) :
  chatInput_value (getBotResponse toLowerCase db text p) = chatInput_value p.
Proof.
  unfold getBotResponse, queryAndAnswer, hideTypingIndicator.
  destruct (decide _); [by destruct (getElementById _ _) as [[? ?]|]|].
  destruct (db _) as [[|d docs]|]; simpl;
    by destruct (getElementById _ _) as [[? ?]|].
Qed.

(** A turn that starts with no indicator on the page ends with none, the
    message and the reply appended, the field cleared, and the log longer by
    the one query, if there was one. *)
Lemma sendMessage_transcript (p : Page) :
  indicators p = 0%nat → trim (chatInput_value p) ≠ [] →
  chatMessages (sendMessage toLowerCase db p)
  = chatMessages p ++ turnBubbles toLowerCase db (trim (chatInput_value p))
  ∧ chatInput_value (sendMessage toLowerCase db p) = []
  ∧ issued (sendMessage toLowerCase db p)
    = issued p
      ++ filter (λ q, q ≠ [])
           [limitedKeywords toLowerCase (trim (chatInput_value p))].
Proof.
  intros Hnone Hne. rewrite sendMessage_turn by done.
  set (text := trim (chatInput_value p)).
  set (p1 := addMessage text (js "user-message") p).
  set (p2 := set_disabled true (set_chatInput_value [] p1)).
  split; [|split].
  - rewrite chatMessages_getBotResponse.
    assert (Hp2 : indicators p2 = 0%nat).
    { unfold indicators, p2, p1, addMessage, set_chatMessages, set_disabled,
        set_chatInput_value.
      cbn [chatMessages].
      rewrite filter_app, length_app. unfold indicators in Hnone.
      rewrite Hnone. by rewrite filter_cons_False by done. }
    rewrite (typing_indicator_inverse p2 Hp2).
    unfold p2, p1, turnBubbles. simpl. by rewrite <- app_assoc.
  - by rewrite chatInput_value_getBotResponse.
  - rewrite issued_getBotResponse. fold text.
    destruct (decide (limitedKeywords toLowerCase text = [])) as [Hk|Hk].
    + rewrite Hk. simpl. by rewrite app_nil_r.
    + by rewrite filter_cons_True, filter_nil by done.
Qed.
End TranscriptFacts.

Section BubbleFacts.
Context (toLowerCase : jsstring → jsstring) (db : Store).

Lemma bubbles_addMessage (text className : jsstring) (p : Page) :
  bubbles (addMessage text className p) = bubbles p ++ [messageDiv text className].
Proof.
  unfold bubbles, addMessage, set_chatMessages. cbn [chatMessages].
  by rewrite filter_app, filter_cons_True by done.
Qed.

Lemma bubbles_show (p : Page) : bubbles (showTypingIndicator p) = bubbles p.
Proof.
  unfold bubbles, showTypingIndicator, set_chatMessages. cbn [chatMessages].
  rewrite filter_app, (filter_cons_False _ indicatorDiv).
  - apply app_nil_r.
  - intros Hne. by apply Hne.
Qed.

Lemma bubbles_getBotResponse (text : jsstring) (p : Page) :
  bubbles (getBotResponse toLowerCase db text p)
  = bubbles p ++ [messageDiv (botReply toLowerCase db text) (js "bot-message")].
Proof.
  unfold bubbles at 1. rewrite chatMessages_getBotResponse, filter_app.
  fold (bubbles (hideTypingIndicator p)). rewrite bubbles_hide.
  by rewrite filter_cons_True by done.
Qed.

Lemma bubbles_sendMessage (p : Page) :
  bubbles (sendMessage toLowerCase db p)
  = bubbles p
    ++ (if decide (trim (chatInput_value p) = []) then []
        else turnBubbles toLowerCase db (trim (chatInput_value p))).
Proof.
  destruct (decide _) as [Hnil|Hne].
  - rewrite sendMessage_blank by done. by rewrite app_nil_r.
  - rewrite sendMessage_turn, bubbles_getBotResponse, bubbles_show by done.
    unfold bubbles at 1, set_disabled, set_chatInput_value. cbn [chatMessages].
    fold (bubbles (addMessage (trim (chatInput_value p)) (js "user-message") p)).
    rewrite bubbles_addMessage, <- app_assoc. done.
Qed.

Lemma indicators_getBotResponse (text : jsstring) (p : Page) :
  indicators (getBotResponse toLowerCase db text p) = (indicators p - 1)%nat.
Proof.
  unfold indicators at 1. rewrite chatMessages_getBotResponse.
  rewrite filter_app, length_app, filter_cons_False, filter_nil by done.
  fold (indicators (hideTypingIndicator p)). rewrite indicators_hide.
  simpl. lia.
Qed.

Lemma indicators_sendMessage (p : Page) :
  indicators (sendMessage toLowerCase db p) = indicators p.
Proof.
  destruct (decide (trim (chatInput_value p) = [])) as [Hnil|Hne].
  - by rewrite sendMessage_blank.
  - rewrite sendMessage_turn, indicators_getBotResponse, indicators_show by done.
    unfold indicators, set_disabled, set_chatInput_value, addMessage, set_chatMessages.
    cbn [chatMessages]. rewrite filter_app, length_app.
    rewrite filter_cons_False by done. simpl. lia.
Qed.
End BubbleFacts.

(** X1.  [sendMessage] does nothing at all exactly when the text field holds
    only whitespace (or nothing): the page, the transcript and the log of
    queries stay as they are.  Any other value starts a turn, which changes
    the page. *)
Theorem sendMessage_ignores_blank_input (toLowerCase : jsstring → jsstring)
    (db : Store) (p : Page) :
  sendMessage toLowerCase db p = p
  ↔ Forall (λ c, isWhiteSpace c = true) (chatInput_value p).
Proof.
  rewrite <- trim_nil. split.
  - intros Hsame. destruct (decide (trim (chatInput_value p) = [])) as [|Hne]; [done|].
    apply (f_equal (λ p, length (bubbles p))) in Hsame.
    rewrite bubbles_sendMessage, decide_False, length_app in Hsame by done.
    simpl in Hsame. lia.
  - apply sendMessage_blank.
Qed.

(** X2.  A turn that starts on a page without typing indicator appends the
    trimmed message as a user bubble and one bot bubble with the reply, in
    this order and with nothing between or after them; it leaves the text
    field empty and no indicator behind. *)
Theorem turn_appends_message_and_reply (toLowerCase : jsstring → jsstring)
    (db : Store) (p : Page) :
  indicators p = 0%nat → trim (chatInput_value p) ≠ [] →
  chatMessages (sendMessage toLowerCase db p)
  = chatMessages p
    ++ [messageDiv (trim (chatInput_value p)) (js "user-message");
        messageDiv (botReply toLowerCase db (trim (chatInput_value p)))
                   (js "bot-message")]
  ∧ chatInput_value (sendMessage toLowerCase db p) = []
  ∧ indicators (sendMessage toLowerCase db p) = 0%nat.
Proof.
  intros Hnone Hne.
  destruct (sendMessage_transcript toLowerCase db p Hnone Hne) as (Hmsgs & Hval & _).
  split; [done|]. split; [done|]. by rewrite indicators_sendMessage.
Qed.

Lemma turn_appends_message_and_reply_witness :
  chatMessages
    (sendMessage toLowerCaseASCII (λ _, Snapshot [])
       (set_chatInput_value (js " Fee structure? ") emptyPage))
  = [messageDiv (js "Fee structure?") (js "user-message");
     messageDiv defaultResponse (js "bot-message")].
Proof.
  pose proof (turn_appends_message_and_reply toLowerCaseASCII (λ _, Snapshot [])
                (set_chatInput_value (js " Fee structure? ") emptyPage)) as H.
  destruct H as (H & _ & _); [vm_compute; reflexivity | vm_compute; discriminate |].
  rewrite H. vm_compute. reflexivity.
Defined.

(** X3.  The transcript is append-only for message bubbles: whatever the page
    holds (any number of indicators), [getBotResponse] keeps every bubble in
    place and adds exactly one bot bubble at the end, and [sendMessage] adds
    nothing for a blank field and otherwise the user bubble followed by the
    bot bubble. *)
Theorem bubbles_append_only (toLowerCase : jsstring → jsstring) (db : Store)
    (text : jsstring) (p : Page) :
  bubbles (getBotResponse toLowerCase db text p)
  = bubbles p ++ [messageDiv (botReply toLowerCase db text) (js "bot-message")]
  ∧ bubbles (sendMessage toLowerCase db p)
    = bubbles p
      ++ (if decide (trim (chatInput_value p) = []) then []
          else [messageDiv (trim (chatInput_value p)) (js "user-message");
                messageDiv (botReply toLowerCase db (trim (chatInput_value p)))
                           (js "bot-message")])
  ∧ bubbles (hideTypingIndicator p) = bubbles p
  ∧ bubbles (showTypingIndicator p) = bubbles p.
Proof.
  split; [apply bubbles_getBotResponse|].
  split; [apply bubbles_sendMessage|].
  split; [apply bubbles_hide | apply bubbles_show].
Qed.

(** X4.  [getBotResponse] takes one typing indicator off the page (none if
    there is none), and a whole [sendMessage] leaves the number of indicators
    on the page as it found it. *)
Theorem turn_balances_indicator (toLowerCase : jsstring → jsstring) (db : Store)
    (text : jsstring) (p : Page) :
  indicators (getBotResponse toLowerCase db text p) = (indicators p - 1)%nat
  ∧ indicators (sendMessage toLowerCase db p) = indicators p.
Proof.
  split; [apply indicators_getBotResponse | apply indicators_sendMessage].
Qed.

(** X5.  A query that the turn sends to the store is never empty and never has
    more than 10 keywords (the bounds of [array-contains-any]); each keyword
    is a non-empty run of word characters and no stop word. *)
Theorem issued_query_is_well_formed (toLowerCase : jsstring → jsstring)
    (db : Store) (text : jsstring) (p : Page) (q : list jsstring) :
  q ∈ issued (getBotResponse toLowerCase db text p) →
  q ∈ issued p
  ∨ (q = limitedKeywords toLowerCase text
     ∧ (1 ≤ length q ≤ 10)%nat
     ∧ ∀ w, w ∈ q →
            w ≠ [] ∧ Forall (λ c, isWordChar c = true) w ∧ w ∉ stopWordList).
Proof.
  rewrite issued_getBotResponse.
  destruct (decide _) as [Hnil|Hne]; [by left|].
  intros [Hold | ->%list_elem_of_singleton]%elem_of_app; [by left | right].
  split; [done|]. split.
  - split.
    + destruct (limitedKeywords toLowerCase text); [done | simpl; lia].
    + rewrite limitedKeywords_take, length_take. lia.
  - intros w Hw. rewrite limitedKeywords_take in Hw. apply subseteq_take in Hw.
    apply userKeywords_elem_of in Hw as [Hw Hstop].
    rewrite allWords_wordRuns in Hw.
    apply wordRuns_words in Hw as [Hne' Hword]; [|constructor].
    split; [done|]. split; [done|].
    intros Hin. apply Hstop. by apply elem_of_list_to_set.
Qed.

Lemma issued_query_is_well_formed_witness :
  [js "hostel"; js "fee"] ∈ issued (getBotResponse toLowerCaseASCII (λ _, Rejected)
                                      (js "Hostel fee?") emptyPage)
  ∧ (1 ≤ length [js "hostel"; js "fee"] ≤ 10)%nat.
Proof.
  assert (Hin : [js "hostel"; js "fee"]
                ∈ issued (getBotResponse toLowerCaseASCII (λ _, Rejected)
                            (js "Hostel fee?") emptyPage))
    by (vm_compute; apply list_elem_of_singleton; reflexivity).
  split; [exact Hin|].
  destruct (issued_query_is_well_formed toLowerCaseASCII (λ _, Rejected)
              (js "Hostel fee?") emptyPage _ Hin) as [Hold | (_ & Hlen & _)].
  - vm_compute in Hold. by apply elem_of_nil in Hold.
  - exact Hlen.
Defined.

(** ** Tokens of a joined text *)

Lemma wordRuns_joinWords (sep : code_unit) (ws : list jsstring) :
  Forall (λ w, w ≠ [] ∧ Forall (λ c, isWordChar c = true) w) ws →
  isWordChar sep = false →
  wordRuns [] (joinWords sep ws) = ws.
Proof.
  intros Hws Hsep. induction Hws as [|w ws [Hne Hw] Hws IH]; [done|].
  destruct ws as [|w' ws'].
  - by apply wordRuns_last_run.
  - change (joinWords sep (w :: w' :: ws'))
      with (w ++ sep :: joinWords sep (w' :: ws')).
    rewrite wordRuns_maximal_run by done. by rewrite IH.
Qed.

(** X7.  Tokenizing is the inverse of joining: take non-empty words made of
    word characters, written with one non-word code unit between them, such
    that lowercasing the text changes nothing but the letters [A-Z] (so the
    separator is not one of the few characters that the built-in turns into
    word characters).  Then the tokens of the text are these words,
    lowercased, in the same order and with repetitions kept. *)
Theorem allWords_of_joined_words (toLowerCase : jsstring → jsstring)
    (sep : code_unit) (ws : list jsstring) :
  toLowerCase (joinWords sep ws) = toLowerCaseASCII (joinWords sep ws) →
  Forall (λ w, w ≠ [] ∧ Forall (λ c, isWordChar c = true) w) ws →
  isWordChar sep = false →
  allWords toLowerCase (joinWords sep ws) = toLowerCaseASCII <$> ws.
Proof.
  intros Hlow Hws Hsep. rewrite allWords_wordRuns, Hlow.
  change [] with (toLowerCaseASCII []) at 1.
  rewrite wordRuns_toLowerCaseASCII. by rewrite wordRuns_joinWords.
Qed.

Lemma allWords_of_joined_words_witness :
  allWords toLowerCaseASCII (joinWords 32 [js "Lab"; js "lab"; js "CS_101"])
  = [js "lab"; js "lab"; js "cs_101"].
Proof.
  apply (allWords_of_joined_words toLowerCaseASCII 32
           [js "Lab"; js "lab"; js "CS_101"]).
  - reflexivity.
  - repeat constructor; try discriminate; vm_compute; reflexivity.
  - vm_compute. reflexivity.
Defined.

(** ** More on scoring *)

Lemma maxScore_perm (q : list jsstring) (docs docs' : list QARecord) :
  docs ≡ₚ docs' → maxScore q docs = maxScore q docs'.
Proof.
  assert (Hle : ∀ l l' : list QARecord, l ≡ₚ l' → (maxScore q l ≤ maxScore q l')%nat).
  { intros l l' Hperm. destruct l as [|d l].
    - simpl. lia.
    - destruct (maxScore_attained q (d :: l)) as (m & Hm & <-); [done|].
      apply maxScore_upper. by rewrite <- Hperm. }
  intros Hperm. apply Nat.le_antisymm; by apply Hle.
Qed.

Lemma bestMatch_score (q : list jsstring) (docs : list QARecord) :
  score (bestMatch q docs) = maxScore q docs.
Proof.
  destruct (bestMatch_first_max q docs)
    as [[Hz Hb] | (l1 & d & l2 & _ & Hb & _ & Hmax & _)]; rewrite Hb; simpl; lia.
Qed.

(** The answer selected is the default message when nothing scores, and
    otherwise the answer of a document with the largest score. *)
Lemma selectBestAnswer_cases (q : list jsstring) (docs : list QARecord) :
  (maxScore q docs = 0%nat ∧ selectBestAnswer q docs = defaultResponse)
  ∨ (∃ d, d ∈ docs ∧ currentScore q d = maxScore q docs
          ∧ (0 < maxScore q docs)%nat
          ∧ selectBestAnswer q docs = answer d).
Proof.
  rewrite selectBestAnswer_bestMatch.
  destruct (bestMatch_first_max q docs)
    as [[Hz Hb] | (l1 & d & l2 & Hd & Hb & Hpos & Hmax & _)]; rewrite Hb; simpl.
  - by left.
  - right. exists d. repeat split; [|done|lia].
    subst docs. apply elem_of_app. right. apply elem_of_cons. by left.
Qed.

(** X9.  The loop computes the maximum: the score it ends on is the largest
    score of the retrieved documents, no document scores more, and the text
    it selects is the default message or the answer of a retrieved document,
    never anything else. *)
Theorem bestMatch_score_is_maximum (q : list jsstring) (docs : list QARecord) :
  score (bestMatch q docs) = maxScore q docs
  ∧ (∀ d, d ∈ docs → (currentScore q d ≤ score (bestMatch q docs))%nat)
  ∧ (selectBestAnswer q docs = defaultResponse
     ∨ ∃ d, d ∈ docs ∧ selectBestAnswer q docs = answer d).
Proof.
  split; [apply bestMatch_score|]. split.
  - intros d Hd. rewrite bestMatch_score. by apply maxScore_upper.
  - destruct (selectBestAnswer_cases q docs) as [[_ H] | (d & Hd & _ & _ & H)].
    + by left.
    + right. by exists d.
Qed.

(** X10.  The order in which the store returns the documents never changes
    the winning score, and it changes the answer only through ties: if all
    documents that attain the largest score carry the same answer, every order
    gives the same reply. *)
Theorem selection_up_to_retrieval_order (q : list jsstring)
    (docs docs' : list QARecord) :
  docs ≡ₚ docs' →
  score (bestMatch q docs) = score (bestMatch q docs')
  ∧ ((∀ d d', d ∈ docs → d' ∈ docs →
              currentScore q d = maxScore q docs →
              currentScore q d' = maxScore q docs → answer d = answer d') →
     selectBestAnswer q docs = selectBestAnswer q docs').
Proof.
  intros Hperm. pose proof (maxScore_perm q _ _ Hperm) as Hmax.
  split; [by rewrite !bestMatch_score|].
  intros Hties.
  destruct (selectBestAnswer_cases q docs) as [[Hz ->] | (d & Hd & Hs & Hpos & ->)];
    destruct (selectBestAnswer_cases q docs')
      as [[Hz' ->] | (d' & Hd' & Hs' & Hpos' & ->)]; try done; try lia.
  apply Hties; [done | by rewrite Hperm | done | lia].
Qed.

Lemma selection_up_to_retrieval_order_witness :
  selectBestAnswer [js "fee"; js "hostel"]
    [mkQA [js "fee"] (js "X"); mkQA [js "fee"; js "hostel"] (js "Y")]
  = selectBestAnswer [js "fee"; js "hostel"]
      [mkQA [js "fee"; js "hostel"] (js "Y"); mkQA [js "fee"] (js "X")].
Proof.
  apply (selection_up_to_retrieval_order [js "fee"; js "hostel"]
           [mkQA [js "fee"] (js "X"); mkQA [js "fee"; js "hostel"] (js "Y")]
           [mkQA [js "fee"; js "hostel"] (js "Y"); mkQA [js "fee"] (js "X")]).
  - apply Permutation_swap.
  - intros d d' Hd Hd' Hs Hs'.
    apply elem_of_cons in Hd as [-> | ->%list_elem_of_singleton];
      apply elem_of_cons in Hd' as [-> | ->%list_elem_of_singleton];
      try reflexivity; vm_compute in Hs, Hs'; discriminate.
Defined.

(** The order does matter between ties. *)
Example retrieval_order_decides_ties :
  selectBestAnswer [js "a"] [mkQA [js "a"] (js "X"); mkQA [js "a"] (js "Y")]
  ≠ selectBestAnswer [js "a"] [mkQA [js "a"] (js "Y"); mkQA [js "a"] (js "X")].
Proof. vm_compute. discriminate. Qed.

Lemma currentScore_le_query (q : list jsstring) (d : QARecord) :
  NoDup (keywords d) → (currentScore q d ≤ length q)%nat.
Proof.
  intros Hnd. rewrite currentScore_count.
  rewrite <- (size_list_to_set (C := gset jsstring)) by (by apply NoDup_filter).
  etrans; [|apply size_list_to_set_le].
  apply subseteq_size. intros k.
  rewrite !elem_of_list_to_set, list_elem_of_filter. tauto.
Qed.

(** X11.  For a record whose keyword list has no duplicates the score is at
    most the number of query keywords, hence at most 10 in every turn; a
    record with a repeated keyword can score more than the query is long. *)
Theorem score_bounded_by_query (toLowerCase : jsstring → jsstring)
    (text : jsstring) (q : list jsstring) (d : QARecord) :
  NoDup (keywords d) →
  (currentScore q d ≤ length q)%nat
  ∧ (currentScore (limitedKeywords toLowerCase text) d ≤ 10)%nat
  ∧ (length [js "a"]
     < currentScore [js "a"] (mkQA [js "a"; js "a"] (answer d)))%nat.
Proof.
  intros Hnd. split; [by apply currentScore_le_query|]. split.
  - etrans; [by apply currentScore_le_query|].
    rewrite limitedKeywords_take, length_take. lia.
  - vm_compute. lia.
Qed.

Lemma score_bounded_by_query_witness :
  (currentScore [js "fee"] (mkQA [js "fee"; js "hostel"] (js "X")) ≤ 1)%nat.
Proof.
  apply (score_bounded_by_query toLowerCaseASCII [] [js "fee"]
           (mkQA [js "fee"; js "hostel"] (js "X"))).
  simpl. apply NoDup_cons. split; [|apply NoDup_singleton].
  intros Hin%list_elem_of_singleton. discriminate Hin.
Defined.

(** X12.  A query that contains every keyword of another query never scores
    a record lower: adding keywords to the query cannot lose a match. *)
Theorem score_grows_with_query (q q' : list jsstring) (d : QARecord) :
  (∀ k, k ∈ q → k ∈ q') → (currentScore q d ≤ currentScore q' d)%nat.
Proof.
  intros Hsub. rewrite !currentScore_count.
  induction (keywords d) as [|k ks IH]; [done|].
  rewrite !filter_cons.
  destruct (decide (k ∈ q)) as [Hk|Hk].
  - rewrite decide_True by (by apply Hsub). simpl. lia.
  - destruct (decide (k ∈ q')); simpl; lia.
Qed.

Lemma score_grows_with_query_witness :
  (currentScore [js "fee"] (mkQA [js "fee"; js "hostel"] (js "X"))
   ≤ currentScore [js "hostel"; js "fee"] (mkQA [js "fee"; js "hostel"] (js "X")))%nat.
Proof.
  apply (score_grows_with_query [js "fee"] [js "hostel"; js "fee"]).
  intros k ->%list_elem_of_singleton. apply elem_of_cons. right.
  by apply list_elem_of_singleton.
Defined.

(** ** Any number of turns *)

Section Runs.
Context (toLowerCase : jsstring → jsstring).

(** What one non-blank [sendMessage] does to a page without indicator. *)
Lemma sendMessage_step (db : Store) (p : Page) :
  indicators p = 0%nat → trim (chatInput_value p) ≠ [] →
  chatMessages (sendMessage toLowerCase db p)
  = chatMessages p ++ turnBubbles toLowerCase db (trim (chatInput_value p))
  ∧ chatInput_value (sendMessage toLowerCase db p) = []
  ∧ issued (sendMessage toLowerCase db p)
    = issued p
      ++ filter (λ q, q ≠ [])
           [limitedKeywords toLowerCase (trim (chatInput_value p))]
  ∧ indicators (sendMessage toLowerCase db p) = 0%nat
  ∧ chatInput_disabled (sendMessage toLowerCase db p) = false
  ∧ sendButton_disabled (sendMessage toLowerCase db p) = false.
Proof.
  intros Hnone Hne.
  destruct (sendMessage_transcript toLowerCase db p Hnone Hne) as (Hmsgs & Hval & Hlog).
  split; [done|]. split; [done|]. split; [done|].
  split; [by rewrite indicators_sendMessage|].
  rewrite sendMessage_turn by done. apply disabled_getBotResponse.
Qed.

(** The page after a sequence of events, in terms of the turns that the
    events ask for. *)
Lemma run_turnsOf (events : list Event) (p : Page) :
  indicators p = 0%nat →
  chatMessages (run toLowerCase events p)
  = chatMessages p
    ++ (turnsOf events (chatInput_value p)
          ≫= (λ t, turnBubbles toLowerCase t.2 t.1))
  ∧ issued (run toLowerCase events p)
    = issued p
      ++ filter (λ q, q ≠ [])
           ((λ t, limitedKeywords toLowerCase t.1)
              <$> turnsOf events (chatInput_value p))
  ∧ indicators (run toLowerCase events p) = 0%nat
  ∧ (chatInput_disabled p = false →
     chatInput_disabled (run toLowerCase events p) = false)
  ∧ (sendButton_disabled p = false →
     sendButton_disabled (run toLowerCase events p) = false).
Proof.
  unfold run. revert p.
  induction events as [|ev events IH]; intros p Hnone.
  - simpl. by rewrite !app_nil_r.
  - assert (Hsend : ∀ db,
        let sent := if decide (trim (chatInput_value p) = []) then
                      turnsOf events (chatInput_value p)
                    else (trim (chatInput_value p), db) :: turnsOf events [] in
        chatMessages (foldl (dispatch toLowerCase) (sendMessage toLowerCase db p) events)
        = chatMessages p ++ (sent ≫= (λ t, turnBubbles toLowerCase t.2 t.1))
        ∧ issued (foldl (dispatch toLowerCase) (sendMessage toLowerCase db p) events)
          = issued p
            ++ filter (λ q, q ≠ []) ((λ t, limitedKeywords toLowerCase t.1) <$> sent)
        ∧ indicators (foldl (dispatch toLowerCase) (sendMessage toLowerCase db p) events)
          = 0%nat
        ∧ (chatInput_disabled p = false →
           chatInput_disabled
             (foldl (dispatch toLowerCase) (sendMessage toLowerCase db p) events) = false)
        ∧ (sendButton_disabled p = false →
           sendButton_disabled
             (foldl (dispatch toLowerCase) (sendMessage toLowerCase db p) events) = false)).
    { intros db sent. unfold sent. clear sent.
      destruct (decide (trim (chatInput_value p) = [])) as [Hnil|Hne].
      - rewrite sendMessage_blank by done. by apply IH.
      - destruct (sendMessage_step db p Hnone Hne)
          as (Hmsgs & Hval & Hlog & Hnone' & Hin & Hbtn).
        destruct (IH _ Hnone') as (IH1 & IH2 & IH3 & IH4 & IH5).
        rewrite Hval in IH1, IH2.
        split; [|split; [|split; [done|split; [auto|auto]]]].
        + rewrite IH1, Hmsgs, <- app_assoc. reflexivity.
        + rewrite IH2, Hlog, <- app_assoc. f_equal.
          rewrite fmap_cons, <- filter_app. reflexivity. }
    destruct ev as [value|db|key db]; simpl.
    + destruct (IH (set_chatInput_value value p)) as (IH1 & IH2 & IH3 & IH4 & IH5);
        [done | by repeat split].
    + apply Hsend.
    + destruct (decide (key = js "Enter")); [apply Hsend | by apply IH].
Qed.

Lemma turnsOf_trimmed (events : list Event) (value : jsstring) :
  Forall (λ t, t.1 ≠ [] ∧ trim t.1 = t.1) (turnsOf events value).
Proof.
  revert value. induction events as [|[value'|db|key db] events IH]; intros value; simpl.
  - constructor.
  - apply IH.
  - destruct (decide _); [apply IH|].
    constructor; [|apply IH]. split; [done | apply trim_idem].
  - destruct (decide (key = _)); [|apply IH].
    destruct (decide _); [apply IH|].
    constructor; [|apply IH]. split; [done | apply trim_idem].
Qed.
End Runs.

(** X13.  From a page between two turns (no typing indicator, controls
    enabled), after any sequence of edits, clicks and key presses the
    transcript has grown by exactly the turns that the events ask for, in
    their order: for every click or Enter on a non-blank field the trimmed
    field value as a user bubble followed by the bubble of the reply that the
    store of that turn gives to it.  The log has grown by one query for each
    of these messages that has keywords, every message sent is non-empty and
    trimmed, both controls are enabled again and no indicator is left. *)
Theorem page_after_any_events (toLowerCase : jsstring → jsstring)
    (events : list Event) (p : Page) :
  indicators p = 0%nat →
  chatInput_disabled p = false →
  sendButton_disabled p = false →
  chatMessages (run toLowerCase events p)
  = chatMessages p
    ++ (turnsOf events (chatInput_value p)
          ≫= (λ t, [messageDiv t.1 (js "user-message");
                    messageDiv (botReply toLowerCase t.2 t.1) (js "bot-message")]))
  ∧ issued (run toLowerCase events p)
    = issued p
      ++ filter (λ q, q ≠ [])
           ((λ t, limitedKeywords toLowerCase t.1)
              <$> turnsOf events (chatInput_value p))
  ∧ Forall (λ t, t.1 ≠ [] ∧ trim t.1 = t.1) (turnsOf events (chatInput_value p))
  ∧ chatInput_disabled (run toLowerCase events p) = false
  ∧ sendButton_disabled (run toLowerCase events p) = false
  ∧ indicators (run toLowerCase events p) = 0%nat.
Proof.
  intros Hnone Hin Hbtn.
  destruct (run_turnsOf toLowerCase events p Hnone) as (H1 & H2 & H3 & H4 & H5).
  split; [exact H1|]. split; [exact H2|]. split; [apply turnsOf_trimmed|].
  split; [by apply H4|]. split; [by apply H5 | exact H3].
Qed.

(** A rejected query, then the same message again with the store back. *)
Lemma page_after_any_events_witness :
  chatMessages
    (run toLowerCaseASCII
       [Edit (js "hello"); KeyPress (js "a") (λ _, Rejected);
        Edit (js " Hostel fee? "); Click (λ _, Rejected);
        Click (λ _, Rejected);
        Edit (js "Hostel fee?");
        KeyPress (js "Enter")
          (λ _, Snapshot [mkQA [js "fee"] (js "See the fee page.")])]
       emptyPage)
  = [messageDiv (js "Hostel fee?") (js "user-message");
     messageDiv troubleResponse (js "bot-message");
     messageDiv (js "Hostel fee?") (js "user-message");
     messageDiv (js "See the fee page.") (js "bot-message")].
Proof.
  pose proof (page_after_any_events toLowerCaseASCII
       [Edit (js "hello"); KeyPress (js "a") (λ _, Rejected);
        Edit (js " Hostel fee? "); Click (λ _, Rejected);
        Click (λ _, Rejected);
        Edit (js "Hostel fee?");
        KeyPress (js "Enter")
          (λ _, Snapshot [mkQA [js "fee"] (js "See the fee page.")])]
       emptyPage) as H.
  destruct H as (H & _); [reflexivity | reflexivity | reflexivity |].
  rewrite H. vm_compute. reflexivity.
Defined.

(** Only a click on the button or the Enter key starts a turn: any other key
    leaves the page as it is, and an edit changes nothing but the value of the
    text field. *)
Lemma only_click_and_enter_send (toLowerCase : jsstring → jsstring)
    (db : Store) (p : Page) (key value : jsstring) :
  (key ≠ js "Enter" → dispatch toLowerCase p (KeyPress key db) = p)
  ∧ dispatch toLowerCase p (KeyPress (js "Enter") db)
    = dispatch toLowerCase p (Click db)
  ∧ chatMessages (dispatch toLowerCase p (Edit value)) = chatMessages p
  ∧ issued (dispatch toLowerCase p (Edit value)) = issued p.
Proof.
  split; [|by repeat split].
  intros Hkey. simpl. by rewrite decide_False.
Qed.

Example run_two_turns :
  run toLowerCaseASCII
    [Edit (js "hello"); KeyPress (js "a") (λ _, Rejected); Edit (js "the");
     KeyPress (js "Enter") (λ _, Rejected);
     Edit (js " Hostel FEE? ");
     Click (λ _, Snapshot [mkQA [js "fee"] (js "See the fee page.")]);
     Click (λ _, Rejected)]
    emptyPage
  = mkPage [messageDiv (js "the") (js "user-message");
            messageDiv defaultResponse (js "bot-message");
            messageDiv (js "Hostel FEE?") (js "user-message");
            messageDiv (js "See the fee page.") (js "bot-message")]
           [] false false [[js "hostel"; js "fee"]].
Proof. vm_compute. reflexivity. Qed.

(** ** Letter case *)




